(** * Web3API client: Uri resolution cache, invocation and query orchestration

    A shallow embedding of the JavaScript client of the monorepo:
    - [getImplementations]            (core-js, the implementation index),
    - [Web3ApiClient] constructor and [redirects],
    - [Web3ApiClient.loadWeb3Api]     (the per-Uri Api cache),
    - [Web3ApiClient.invoke]          (the invocation boundary),
    - [Web3ApiClient.query]           (aggregation of parallel invocations,
                                       with its helper [makeRepeatedUnique]),
    - [resolveUri]                    (the resolution engine, from its
                                       specification).

    JavaScript exceptions are modelled with the [Result] type, the
    [Map]/object dictionaries of the source with stdpp's [gmap], arrays that
    are shared by reference with an explicit store of arrays, and the
    [async] functions by splitting them at their [await] points. *)

From Stdlib Require Import Ascii.
From stdpp Require Import base option list strings gmap pretty.

(** ** Exceptions *)

(** A thrown value.  The client only ever builds [Error(message)] itself;
    errors of collaborators are passed through unchanged. *)
Record Error := mkError { message : string }.

#[global] Instance Error_eq_dec : EqDecision Error.
Proof. solve_decision. Defined.

(** The outcome of a JavaScript call: a returned value or a thrown one. *)
Inductive Result (A : Type) : Type :=
  | Return (a : A)
  | Throw (e : Error).
Arguments Return {A} a.
Arguments Throw {A} e.

#[global] Instance Result_ret : MRet Result := @Return.
#[global] Instance Result_bind : MBind Result := λ A B f m,
  match m with
  | Return a => f a
  | Throw e => Throw e
  end.

Definition is_Return {A} (r : Result A) : Prop := ∃ a, r = Return a.

(** [try { body } catch (error) { handler(error) }]: a handler that itself
    returns makes the whole statement return. *)
Definition try_catch {A} (body : Result A) (handler : Error → Result A) : Result A :=
  match body with
  | Return a => Return a
  | Throw e => handler e
  end.

(** ** Uris and redirects (core-js types) *)

(** Modelled from the spec: the [Uri] class is not among the sources.  A Uri
    is identified by its canonical string form ([uri.uri] in the client, the
    key of the Api cache), and [Uri.equals] compares canonical forms. *)
Record Uri := mkUri { uri : string }.

#[global] Instance Uri_eq_dec : EqDecision Uri.
Proof. solve_decision. Defined.

Definition Uri_equals (a b : Uri) : bool := bool_decide (uri a = uri b).

(** Modelled from the spec: the constructor [new Uri(text)] restricted to
    texts that are already in canonical form.  Canonicalization is total and
    idempotent (§3), so such a text is its own canonical form.  The general
    constructor, which throws on malformed text, is a parameter of
    [getImplementations] below. *)
Definition Uri_of_canonical (text : string) : Result Uri := Return (mkUri text).

(** A plugin instance; its methods are external to the client. *)
Inductive Plugin := PluginInstance (name : string).

Record PluginManifest := mkManifest {
  schema : string;
  implemented : list Uri;
  imported : list Uri
}.

Record PluginPackage := mkPackage {
  factory : unit → Plugin;
  manifest : PluginManifest
}.

(** [to: string | PluginPackage]; the source tells the two apart with
    [typeof redirect.to !== "string"]. *)
Inductive RedirectTarget :=
  | ToUri (text : string)
  | ToPlugin (pkg : PluginPackage).

Record UriRedirect := mkRedirect {
  from : string;
  to : RedirectTarget
}.

(** [Array.prototype.findIndex]: the index of the first element satisfying
    the predicate, [-1] when there is none. *)
Fixpoint findIndex {A} (p : A → bool) (l : list A) : Z :=
  match l with
  | [] => -1
  | x :: l' => if p x then 0 else
                 let i := findIndex p l' in
                 if (i =? -1)%Z then -1 else (i + 1)%Z
  end.

(** ** The implementation index *)

Section GetImplementations.

(** [new Uri(text)], which throws on malformed text. *)
Variable newUri : string → Result Uri.

(** The body of the [for (const redirect of redirects)] loop, with the
    [result] array as accumulator. *)
Fixpoint getImplementations_loop (abstractApi : Uri)
    (redirects : list UriRedirect) (result : list Uri) : Result (list Uri) :=
  match redirects with
  | [] => Return result
  | redirect :: rest =>
      match to redirect with
      | ToPlugin pkg =>
          (* Plugin implemented check *)
          let implementedApi :=
            (-1 <? findIndex (λ u, Uri_equals u abstractApi)
                     (implemented (manifest pkg)))%Z in
          if implementedApi then
            u ← newUri (from redirect);
            getImplementations_loop abstractApi rest (result ++ [u])
          else getImplementations_loop abstractApi rest result
      | ToUri target =>
          fromUri ← newUri (from redirect);
          if Uri_equals fromUri abstractApi then
            t ← newUri target;
            getImplementations_loop abstractApi rest (result ++ [t])
          else getImplementations_loop abstractApi rest result
      end
  end.

Definition getImplementations (abstractApi : Uri)
    (redirects : list UriRedirect) : Result (list Uri) :=
  getImplementations_loop abstractApi redirects [].

(** The Uri a text denotes, when the constructor accepts it. *)
Definition parsed (text : string) : option Uri :=
  match newUri text with
  | Return u => Some u
  | Throw _ => None
  end.

(** Every text of the table is accepted by the constructor. *)
Definition well_formed_redirect (r : UriRedirect) : Prop :=
  is_Some (parsed (from r)) ∧
  match to r with
  | ToUri target => is_Some (parsed target)
  | ToPlugin _ => True
  end.

(** What one entry contributes, as the source selects it: a plugin binding
    that implements the abstract Uri contributes its [from]; an alias whose
    [from] is the abstract Uri contributes its [to]. *)
Definition contribution (abstractApi : Uri) (r : UriRedirect) : option Uri :=
  match to r with
  | ToPlugin pkg =>
      if bool_decide (abstractApi ∈ implemented (manifest pkg))
      then parsed (from r) else None
  | ToUri target =>
      if bool_decide (parsed (from r) = Some abstractApi)
      then parsed target else None
  end.

(** A plugin binding whose [implemented] list contains the abstract Uri. *)
Definition implements (abstractApi : Uri) (r : UriRedirect) : bool :=
  match to r with
  | ToPlugin pkg => bool_decide (abstractApi ∈ implemented (manifest pkg))
  | ToUri _ => false
  end.

(** The selection rule as the specification words it: a plugin binding that
    implements the abstract Uri contributes its [from]; an alias contributes
    its [to] when that [to] is the [from] of a binding of the table whose
    [implemented] set contains the abstract Uri. *)
Definition spec_contribution (abstractApi : Uri) (redirects : list UriRedirect)
    (r : UriRedirect) : option Uri :=
  match to r with
  | ToPlugin pkg =>
      if implements abstractApi r then parsed (from r) else None
  | ToUri target =>
      if existsb (λ b, implements abstractApi b &&
                       bool_decide (is_Some (parsed target) ∧
                                    parsed (from b) = parsed target))
           redirects
      then parsed target else None
  end.

Definition spec_implementations (abstractApi : Uri)
    (redirects : list UriRedirect) : list Uri :=
  omap (spec_contribution abstractApi redirects) redirects.

End GetImplementations.

(** ** JavaScript values and invocation records *)

(** Data returned by an Api method.  [undefined] is [None] of
    [option JsValue]. *)
Inductive JsValue :=
  | JNull
  | JBool (b : bool)
  | JNumber (n : Z)
  | JString (s : string).

#[global] Instance JsValue_eq_dec : EqDecision JsValue.
Proof. solve_decision. Defined.

Record InvokeApiOptions := mkInvokeOptions {
  opt_uri : Uri;
  opt_method : string;
  opt_input : JsValue;
  opt_decode : bool
}.

(** [{ data?: TData; error?: Error }] *)
Record InvokeApiResult := mkInvokeResult {
  data : option JsValue;
  error : option Error
}.

(** [{ data?: TData; errors?: Error[] }].  A property that is present and
    holds [undefined] is a key of the [gmap] bound to [None]; reading a
    property, [obj[key]], does not tell it from an absent one.  [js_get] is
    that reading for the keys that are not names of members of
    [Object.prototype], which a plain object would answer with the inherited
    member. *)
Record QueryApiResult := mkQueryResult {
  q_data : option (gmap string (option JsValue));
  q_errors : option (list Error)
}.

Definition js_get (obj : gmap string (option JsValue)) (key : string) : option JsValue :=
  match obj !! key with
  | Some v => v
  | None => None
  end.

(** ** Api handles *)

Inductive ApiKind := PluginWeb3Api | WasmWeb3Api.

(** An Api object: [api_object] is the identity of the JavaScript object, so
    that two handles built for the same Uri by two resolutions differ. *)
Record Api := mkApi {
  api_object : nat;
  api_kind : ApiKind;
  api_uri : Uri
}.

#[global] Instance ApiKind_eq_dec : EqDecision ApiKind.
Proof. solve_decision. Defined.
#[global] Instance Api_eq_dec : EqDecision Api.
Proof. solve_decision. Defined.

(** ** The store of shared objects *)

(** Config objects and arrays live in a store and are held by reference:
    [this._config] is the caller's object, and [this._config.redirects] the
    caller's array. *)
Definition ref := nat.

Record ClientConfig := mkConfig { redirects : ref }.

Record Store := mkStore {
  configs : gmap ref ClientConfig;
  arrays : gmap ref (list UriRedirect)
}.

Record Web3ApiClient := mkClient {
  _apiCache : gmap string Api;
  _config : ref;
  _showLogging : bool
}.

Definition set_apiCache (c : Web3ApiClient) (cache : gmap string Api) : Web3ApiClient :=
  {| _apiCache := cache; _config := _config c; _showLogging := _showLogging c |}.

Definition fresh_ref {V} (m : gmap ref V) : ref := fresh (dom m).

Section Constructor.

(** The table of [./default-redirects], which is not among the sources:
    the entries for the IPFS, ETH and ENS plugins. *)
Variable getDefaultRedirects : unit → list UriRedirect.

(** [new Web3ApiClient(config, showLogging)].  An omitted [config] is the
    default parameter [{ redirects: [] }], a new object with a new array.
    The result is [None] only for a dangling reference, which JavaScript
    excludes.  The tracer calls guarded by [_showLogging] write to the
    tracing sink only and are left out here and below. *)
Definition Web3ApiClient_new (s : Store) (config : option ref)
    (showLogging : bool) : option (Store * Web3ApiClient) :=
  let '(s1, this_config) :=
    match config with
    | Some c => (s, c)
    | None =>
        let a := fresh_ref (arrays s) in
        let c := fresh_ref (configs s) in
        ({| configs := <[c := {| redirects := a |}]> (configs s);
            arrays := <[a := []]> (arrays s) |}, c)
    end in
  cfg ← configs s1 !! this_config;
  (* const { redirects } = this._config *)
  arr ← arrays s1 !! redirects cfg;
  (* redirects.push(...getDefaultRedirects()) *)
  let s2 := {| configs := configs s1;
               arrays := <[redirects cfg := arr ++ getDefaultRedirects ()]> (arrays s1) |} in
  Some (s2, {| _apiCache := ∅; _config := this_config; _showLogging := showLogging |}).

End Constructor.

(** [client.redirects()]: the array [this._config.redirects] refers to. *)
Definition Web3ApiClient_redirects (s : Store) (c : Web3ApiClient) : option (list UriRedirect) :=
  cfg ← configs s !! _config c;
  arrays s !! redirects cfg.

(** The content of the array a config object refers to. *)
Definition config_redirects (s : Store) (config : ref) : option (list UriRedirect) :=
  cfg ← configs s !! config;
  arrays s !! redirects cfg.

(** ** The Api cache: [loadWeb3Api] *)

(** [loadWeb3Api] has one suspension point, [await resolveUri(...)].  A call
    runs without interruption up to it and, once the promise of [resolveUri]
    settles, from it to the [return]. *)
Inductive Suspended (A : Type) : Type :=
  | Finished (r : Result A)
  | AwaitResolveUri (u : Uri).
Arguments Finished {A} r.
Arguments AwaitResolveUri {A} u.

(** From the call to the first [await]: the cache is read, and on a miss
    [resolveUri] has been called. *)
Definition loadWeb3Api_enter (c : Web3ApiClient) (u : Uri) : Suspended Api :=
  match _apiCache c !! uri u with
  | Some api => Finished (Return api)
  | None => AwaitResolveUri u
  end.

(** From the settled [resolveUri] promise to the end.  [resolved] is what
    the promise settled with: a handle, [undefined], or a rejection. *)
Definition loadWeb3Api_resume (c : Web3ApiClient) (u : Uri)
    (resolved : Result (option Api)) : Web3ApiClient * Result Api :=
  match resolved with
  | Throw e => (c, Throw e)
  | Return None =>
      (c, Throw (mkError ("Unable to resolve Web3API at uri: " +:+ uri u)))
  | Return (Some api) =>
      (set_apiCache c (<[uri u := api]> (_apiCache c)), Return api)
  end.

(** A call that no other task interleaves with. *)
Definition loadWeb3Api (c : Web3ApiClient) (u : Uri)
    (resolved : Result (option Api)) : Web3ApiClient * Result Api :=
  match loadWeb3Api_enter c u with
  | Finished r => (c, r)
  | AwaitResolveUri u' => loadWeb3Api_resume c u' resolved
  end.

(** *** Interleaved calls *)

(** The state of one [loadWeb3Api(u)] call of a client. *)
Inductive Task :=
  | NotStarted (u : Uri)
  | Resolving (u : Uri)
  | Settled (r : Result Api).

(** A client with the calls made on it.  [resolveCalls] records, latest
    first, the Uris [resolveUri] has been called with; it is not a field of
    the source but the trace of its calls to the resolution procedure. *)
Record World := mkWorld {
  client : Web3ApiClient;
  tasks : list Task;
  resolveCalls : list Uri
}.

Inductive Event :=
  | Call (i : nat)
  | Resume (i : nat) (resolved : Result (option Api)).

(** One scheduling step of the single-threaded event loop. *)
Definition step (w : World) (ev : Event) : option World :=
  match ev with
  | Call i =>
      match tasks w !! i with
      | Some (NotStarted u) =>
          match loadWeb3Api_enter (client w) u with
          | Finished r =>
              Some {| client := client w;
                      tasks := <[i := Settled r]> (tasks w);
                      resolveCalls := resolveCalls w |}
          | AwaitResolveUri u' =>
              Some {| client := client w;
                      tasks := <[i := Resolving u']> (tasks w);
                      resolveCalls := u' :: resolveCalls w |}
          end
      | _ => None
      end
  | Resume i resolved =>
      match tasks w !! i with
      | Some (Resolving u) =>
          let '(c, r) := loadWeb3Api_resume (client w) u resolved in
          Some {| client := c;
                  tasks := <[i := Settled r]> (tasks w);
                  resolveCalls := resolveCalls w |}
      | _ => None
      end
  end.

Fixpoint run (w : World) (evs : list Event) : option World :=
  match evs with
  | [] => Some w
  | ev :: evs' =>
      match step w ev with
      | Some w' => run w' evs'
      | None => None
      end
  end.

Definition resolving (key : string) (t : Task) : bool :=
  match t with
  | Resolving u => bool_decide (uri u = key)
  | _ => false
  end.

(** The number of resolution attempts in flight for a key. *)
Definition in_flight (w : World) (key : string) : nat :=
  length (filter (λ t, resolving key t = true) (tasks w)).

(** The number of resolution attempts ever started for a key. *)
Definition attempts (w : World) (key : string) : nat :=
  length (filter (λ u, uri u = key) (resolveCalls w)).

(** What the caller of a resumed call observes. *)
Definition observed (u : Uri) (resolved : Result (option Api)) : Result Api :=
  match resolved with
  | Throw e => Throw e
  | Return None => Throw (mkError ("Unable to resolve Web3API at uri: " +:+ uri u))
  | Return (Some api) => Return api
  end.

Definition resolution_failed (resolved : Result (option Api)) : Prop :=
  match resolved with
  | Return (Some _) => False
  | _ => True
  end.

(** ** The invocation boundary: [invoke] *)

(** [invoke] awaits [loadWeb3Api] and then [api.invoke(options, this)], both
    inside one [try]; the [catch] returns [{ error }].  [dispatch] is what
    the call of [api.invoke] on the loaded handle settles with (a plugin
    method or an export of a module, both external to the client), [resolved]
    what [resolveUri] settles with if the load misses the cache.  The tracer
    calls, in the [catch] and the [finally] too, are guarded by
    [_showLogging], and [span] is assigned before its first use whenever the
    flag is set; the tracer is a sink whose calls return. *)
Definition Web3ApiClient_invoke (c : Web3ApiClient) (options : InvokeApiOptions)
    (resolved : Result (option Api)) (dispatch : Api → Result InvokeApiResult)
    : Web3ApiClient * Result InvokeApiResult :=
  let '(c', loaded) := loadWeb3Api c (opt_uri options) resolved in
  (c', try_catch
         (api ← loaded; dispatch api)
         (λ error, Return {| data := None; error := Some error |})).

(** ** Aggregation of a query: [query] *)

(** The [counts] object of [makeRepeatedUnique] is a dictionary from names to
    numbers; [counts[name] || 0] reads an absent name as [0].  Method names
    are taken not to be names of members of [Object.prototype]. *)
Fixpoint makeRepeatedUnique_reduce (names : list string)
    (counts : gmap string nat) (acc : list string) : list string :=
  match names with
  | [] => acc
  | name :: rest =>
      let count := default 0 (counts !! name) + 1 in
      let counts' := <[name := count]> counts in
      let uniq := if 1 <? count then name +:+ "_" +:+ pretty (count - 1)
                  else name in
      makeRepeatedUnique_reduce rest counts' (acc ++ [uniq])
  end.

Definition makeRepeatedUnique (names : list string) : list string :=
  makeRepeatedUnique_reduce names ∅ [].

(** [for (let i = 0; i < methods.length; ++i) data[methods[i]] = resultDatas[i]].
    Like [counts], [data] is a plain object; the dictionary stands for it on
    the keys that are not names of members of [Object.prototype]. *)
Fixpoint build_data (methods : list string) (resultDatas : list (option JsValue))
    (data : gmap string (option JsValue)) : gmap string (option JsValue) :=
  match methods, resultDatas with
  | m :: methods', d :: resultDatas' => build_data methods' resultDatas' (<[m := d]> data)
  | _, _ => data
  end.

(** The part of [query] after [await Promise.all(parallelInvocations)]:
    [invocations] is the array of [{ method, result }] in the order of the
    parsed operations. *)
Definition query_aggregate (invocations : list (string * InvokeApiResult))
    : QueryApiResult :=
  let methods := fst <$> invocations in
  let resultDatas := (data ∘ snd) <$> invocations in
  (* if (invocation.result.error) errors.push(invocation.result.error) *)
  let errors := omap (error ∘ snd) invocations in
  let methods := makeRepeatedUnique methods in
  let data := build_data methods resultDatas ∅ in
  {| q_data := Some data;
     q_errors := if bool_decide (length errors = 0) then None else Some errors |}.

(** [query]: the parser ([createQueryDocument], [parseQuery]) is an external
    pure function that may throw; [parsedQuery] is its outcome.  Each parsed
    operation is invoked with [decode: true]; [invokeAt i] gives what
    [this.invoke] settles with for the operation at position [i] (it never
    rejects).  The [catch] turns a thrown [Error] into the [errors] array; a
    thrown value that has a [length] would be returned as it is. *)
Definition Web3ApiClient_query (parsedQuery : Result (list InvokeApiOptions))
    (invokeAt : nat → InvokeApiOptions → InvokeApiResult) : QueryApiResult :=
  match parsedQuery with
  | Return invokeOptions =>
      let invocations :=
        imap (λ i invocation,
                (opt_method invocation,
                 invokeAt i {| opt_uri := opt_uri invocation;
                               opt_method := opt_method invocation;
                               opt_input := opt_input invocation;
                               opt_decode := true |})) invokeOptions in
      query_aggregate invocations
  | Throw error => {| q_data := None; q_errors := Some [error] |}
  end.

(** The keys of the data mapping of a query, in operation order. *)
Definition result_keys (invocations : list (string * InvokeApiResult)) : list string :=
  makeRepeatedUnique (fst <$> invocations).

(** ** The resolution engine: [resolveUri] *)

Inductive ResolutionError :=
  | MalformedUri
  | ResolutionCycle
  | UnresolvedUri.

(** A live handle as the engine builds it. *)
Inductive ApiHandle :=
  | PluginHandle (u : Uri) (instance : Plugin)
  | ModuleHandle (u : Uri) (moduleManifest : string) (apiResolver : Uri)
      (bytecode : string).

(** The resolver plugin contract: not found, a further Uri to continue
    with, or a manifest with a content locator. *)
Inductive ResolverAnswer :=
  | NotFound
  | ContinueWith (next : Uri)
  | ModuleAt (moduleManifest : string) (locator : Uri).

Section ResolveUri.

Variable newUri : string → Result Uri.
Variable table : list UriRedirect.

(** The well-known "URI resolver" interface. *)
Variable uriResolverInterface : Uri.

(** The resolver method and the content fetch of a live handle; both are
    calls into collaborators. *)
Variable invokeResolver : ApiHandle → Uri → ResolverAnswer.
Variable fetchBytes : ApiHandle → Uri → option string.

(** The first entry of the table whose [from] is the target. *)
Definition directMatch (target : Uri) : option UriRedirect :=
  find (λ r, bool_decide (parsed newUri (from r) = Some target)) table.

(** Modelled from the spec: [resolveUri] is imported by the client from
    core-js and is not among the sources.  §4.3: direct alias check, direct
    plugin check, delegated resolution through the implementers of the
    resolver interface (first non-empty answer wins), module instantiation;
    the Uris being resolved in the current call chain are tracked in
    [visited], and a repeat fails with [ResolutionCycle].  A resolver may
    keep answering with further Uris, so the recursion is bounded by
    [fuel]; [None] is "out of fuel". *)
Fixpoint resolveUri (fuel : nat) (visited : list Uri) (target : Uri)
    : option (ResolutionError + ApiHandle) :=
  match fuel with
  | 0 => None
  | S fuel' =>
      if bool_decide (target ∈ visited) then Some (inl ResolutionCycle)
      else
        let chain := target :: visited in
        match directMatch target with
        | Some r =>
            match to r with
            | ToUri text =>
                match parsed newUri text with
                | Some next => resolveUri fuel' chain next
                | None => Some (inl MalformedUri)
                end
            | ToPlugin pkg =>
                Some (inr (PluginHandle target (factory pkg ())))
            end
        | None =>
            match getImplementations newUri uriResolverInterface table with
            | Throw _ => Some (inl MalformedUri)
            | Return implementers =>
                (fix delegate (resolvers : list Uri) :=
                   match resolvers with
                   | [] => Some (inl UnresolvedUri)
                   | resolver :: rest =>
                       match resolveUri fuel' chain resolver with
                       | None => None
                       | Some (inl err) => Some (inl err)
                       | Some (inr handle) =>
                           match invokeResolver handle target with
                           | NotFound => delegate rest
                           | ContinueWith next => resolveUri fuel' chain next
                           | ModuleAt m locator =>
                               match resolveUri fuel' chain locator with
                               | None => None
                               | Some (inl err) => Some (inl err)
                               | Some (inr store) =>
                                   match fetchBytes store locator with
                                   | Some bytes =>
                                       Some (inr (ModuleHandle target m resolver bytes))
                                   | None => Some (inl UnresolvedUri)
                                   end
                               end
                           end
                       end
                   end) implementers
            end
        end
  end.

(** The Uri the target is an alias of, by the first matching entry. *)
Definition alias_of (target : Uri) : option Uri :=
  match directMatch target with
  | Some r =>
      match to r with
      | ToUri text => parsed newUri text
      | ToPlugin _ => None
      end
  | None => None
  end.

(** Following [n] alias hops from a Uri. *)
Fixpoint alias_path (n : nat) (a : Uri) : option Uri :=
  match n with
  | 0 => Some a
  | S n' => alias_of a ≫= alias_path n'
  end.

End ResolveUri.

(** ** Example tables *)

Definition abstractInterface : Uri := mkUri "w3://authority/some-abstract-interface".

Definition pluginImplementing (interfaces dependencies : list Uri) : PluginPackage :=
  {| factory := λ _, PluginInstance "plugin";
     manifest := {| schema := ""; implemented := interfaces;
                    imported := dependencies |} |}.

(** The first entry of the table of [get-implementations.spec.ts], in
    canonical form: an alias from the abstract interface to [one/1]. *)
Definition aliasOnly : list UriRedirect :=
  [ {| from := "w3://authority/some-abstract-interface"; to := ToUri "w3://one/1" |} ].

(** An alias to a plugin binding that implements the interface. *)
Definition aliasToImplementer : list UriRedirect :=
  [ {| from := "w3://some/alias"; to := ToUri "w3://something/else" |};
    {| from := "w3://something/else";
       to := ToPlugin (pluginImplementing [abstractInterface] []) |} ].

(** The table of [get-implementations.spec.ts]. *)
Definition testTable : list UriRedirect :=
  [ {| from := "w3://authority/some-abstract-interface"; to := ToUri "w3://one/1" |};
    {| from := "w3://authority/some-abstract-interface";
       to := ToPlugin (pluginImplementing [abstractInterface] []) |};
    {| from := "w3://something/else";
       to := ToPlugin (pluginImplementing [abstractInterface]
                         [mkUri "w3://something/else-2"]) |};
    {| from := "w3://some-other/other"; to := ToUri "w3://other/other" |};
    {| from := "w3://some-other/other1"; to := ToPlugin (pluginImplementing [] []) |} ].

(** Two aliases that point at each other. *)
Definition cyclicTable : list UriRedirect :=
  [ {| from := "w3://a/a"; to := ToUri "w3://b/b" |};
    {| from := "w3://b/b"; to := ToUri "w3://a/a" |} ].

(** ** Auxiliary definitions of the properties *)

(** The default table of the examples: the three plugin bindings of the
    test environment (ethereum, ipfs, ens). *)
Definition exampleDefaults (_ : unit) : list UriRedirect :=
  [ {| from := "w3://ens/ethereum.web3api.eth"; to := ToPlugin (pluginImplementing [] []) |};
    {| from := "w3://ens/ipfs.web3api.eth"; to := ToPlugin (pluginImplementing [] []) |};
    {| from := "w3://ens/ens.web3api.eth"; to := ToPlugin (pluginImplementing [] []) |} ].

(** A store with one config object whose array holds one user entry, which
    binds the Uri of the default ipfs entry. *)
Definition exampleStore : Store :=
  {| configs := {[ 0 := {| redirects := 7 |} ]};
     arrays := {[ 7 := [ {| from := "w3://ens/ipfs.web3api.eth";
                            to := ToUri "w3://one/1" |} ] ]} |}.

(** A client on which [loadWeb3Api] is about to be called for each of the
    given Uris. *)
Definition callers (c : Web3ApiClient) (us : list Uri) : World :=
  {| client := c; tasks := NotStarted <$> us; resolveCalls := [] |}.

(** At most one resolution attempt per key is in flight. *)
Definition single_flight (w : World) : Prop := ∀ key, in_flight w key ≤ 1.

Definition freshClient : Web3ApiClient :=
  {| _apiCache := ∅; _config := 0; _showLogging := false |}.

Definition uriA : Uri := mkUri "w3://ens/api.simplestorage.eth".

(** Two handles for the same Uri, built by two resolutions. *)
Definition apiA : Api := {| api_object := 1; api_kind := WasmWeb3Api; api_uri := uriA |}.
Definition apiB : Api := {| api_object := 2; api_kind := WasmWeb3Api; api_uri := uriA |}.

(** A cached key with no attempt in flight: the entry and the number of
    attempts for the key are fixed from then on. *)
Definition settled_entry (key : string) (api : Api) (n : nat) (w : World) : Prop :=
  _apiCache (client w) !! key = Some api ∧ in_flight w key = 0 ∧ attempts w key = n.

Definition occurrences (name : string) (seen : list string) : nat :=
  length (filter (λ n, n = name) seen).

Definition suffixed (name : string) (k : nat) : string :=
  match k with
  | 0 => name
  | S _ => name +:+ "_" +:+ pretty k
  end.

(** The naming rule in the words of the specification: an occurrence of a
    name that was seen [k] times before is [name] for [k = 0] and [name_k]
    otherwise. *)
Fixpoint unique_names (seen names : list string) : list string :=
  match names with
  | [] => []
  | name :: rest =>
      suffixed name (occurrences name seen) :: unique_names (name :: seen) rest
  end.

(** The characters [pretty] writes a number with. *)
Definition is_digit (c : ascii) : bool :=
  bool_decide (c ∈ ["0"; "1"; "2"; "3"; "4"; "5"; "6"; "7"; "8"; "9"]%char).

Fixpoint digits_only (s : string) : bool :=
  match s with
  | EmptyString => true
  | String c s' => is_digit c && digits_only s'
  end.

(** No name of the list has the form [m_k], [k ≥ 1], of a name [m] of the
    list. *)
Definition unsuffixed (names : list string) : Prop :=
  ∀ n m k, n ∈ names → m ∈ names → n ≠ suffixed m (S k).

Definition succeeded (v : JsValue) : InvokeApiResult := {| data := Some v; error := None |}.
Definition failed (e : Error) : InvokeApiResult := {| data := None; error := Some e |}.

(** ** Further definitions of the properties *)

(** The texts the loop of [getImplementations] hands to the Uri constructor
    for an entry are accepted: the [from] of an alias always, its [to] when
    the [from] is the abstract Uri, and the [from] of a plugin binding when
    the binding implements the abstract Uri. *)
Definition entry_parses (newUri : string → Result Uri) (abstractApi : Uri)
    (r : UriRedirect) : Prop :=
  match to r with
  | ToPlugin pkg =>
      abstractApi ∈ implemented (manifest pkg) → is_Some (parsed newUri (from r))
  | ToUri target =>
      is_Some (parsed newUri (from r)) ∧
      (parsed newUri (from r) = Some abstractApi → is_Some (parsed newUri target))
  end.

(** An instance of the Uri constructor for the examples: it rejects the
    empty text and takes every other text as canonical. *)
Definition Uri_reject_empty (text : string) : Result Uri :=
  if bool_decide (text = "") then Throw (mkError "The provided URI is empty")
  else Return (mkUri text).

(** The cache key a call still has to resolve or is resolving; a settled
    call has none. *)
Definition task_key (t : Task) : option string :=
  match t with
  | NotStarted u | Resolving u => Some (uri u)
  | Settled _ => None
  end.

(** The handles that the resolutions of a key deliver in a sequence of
    events: those of the [Resume] events with a handle, for the calls that
    are for the key in the task list. *)
Fixpoint delivered_for (ts : list Task) (key : string) (evs : list Event) : list Api :=
  match evs with
  | [] => []
  | Resume i (Return (Some api)) :: evs' =>
      if bool_decide ((ts !! i) ≫= task_key = Some key)
      then api :: delivered_for ts key evs'
      else delivered_for ts key evs'
  | _ :: evs' => delivered_for ts key evs'
  end.

(** The state of a call for [u] once it has run up to its first [await]. *)
Definition entered (c : Web3ApiClient) (u : Uri) : Task :=
  match _apiCache c !! uri u with
  | Some api => Settled (Return api)
  | None => Resolving u
  end.

(** The Uris of a list that miss the cache of a client. *)
Definition uncached (c : Web3ApiClient) (us : list Uri) : list Uri :=
  filter (λ u, _apiCache c !! uri u = None) us.

(** ** The IPFS plugin (client-js-plugins/ipfs) *)

(** [interface IpfsConfig { provider: string }] *)
Record IpfsConfig := mkIpfsConfig { provider : string }.

(** The object [new IpfsClient(provider)] of ipfs-http-client, which talks
    to the endpoint it was created for. *)
Record IpfsClient := mkIpfsClient { endpoint : string }.

(** The plugin holds the config object it was given by reference
    ([private _config]); [_ipfs] is not set before [setProvider] has run. *)
Record IpfsPlugin := mkIpfsPlugin {
  ipfs_config : ref;
  _ipfs : option IpfsClient
}.

(** [setProvider(provider)]: [this._config.provider = provider] and
    [this._ipfs = new IpfsClient(provider)].  [None] is a dangling
    reference, which JavaScript excludes. *)
Definition IpfsPlugin_setProvider (h : gmap ref IpfsConfig) (p : IpfsPlugin)
    (newProvider : string) : option (gmap ref IpfsConfig * IpfsPlugin) :=
  _ ← h !! ipfs_config p;
  Some (<[ipfs_config p := {| provider := newProvider |}]> h,
        {| ipfs_config := ipfs_config p;
           _ipfs := Some {| endpoint := newProvider |} |}).

(** [new IpfsPlugin(config)]: after [super(...)], which records the
    implemented interfaces, [this.setProvider(_config.provider)]. *)
Definition IpfsPlugin_new (h : gmap ref IpfsConfig) (config : ref)
    : option (gmap ref IpfsConfig * IpfsPlugin) :=
  cfg ← h !! config;
  IpfsPlugin_setProvider h {| ipfs_config := config; _ipfs := None |} (provider cfg).

(** The provider the config object of a plugin names. *)
Definition config_provider (h : gmap ref IpfsConfig) (p : IpfsPlugin) : option string :=
  provider <$> h !! ipfs_config p.

(** The client of the plugin is the one for the provider its config
    names. *)
Definition in_agreement (h : gmap ref IpfsConfig) (p : IpfsPlugin) : Prop :=
  ∃ prov, config_provider h p = Some prov ∧ _ipfs p = Some {| endpoint := prov |}.

(** What iterating [this._ipfs.cat(cid)] gives: the chunks, and then the
    end of the stream or a failure. *)
Record CatStream := mkCatStream {
  chunks : list (list Byte.byte);
  failure : option Error
}.

(** [new Uint8Array(length)]: zero-filled. *)
Definition Uint8Array_new (len : nat) : list Byte.byte := replicate len Byte.x00.

(** [target.set(source)]: copies the source to the start of the target and
    throws a [RangeError] when it does not fit. *)
Definition Uint8Array_set (target source : list Byte.byte) : Result (list Byte.byte) :=
  if bool_decide (length target < length source)
  then Throw (mkError "RangeError: offset is out of bounds")
  else Return (source ++ drop (length source) target).

(** [Uint8Array.prototype.toString] is the [toString] of arrays: the
    decimal values of the elements joined by commas. *)
Definition Uint8Array_toString (bytes : list Byte.byte) : string :=
  String.concat "," ((λ b, pretty (Byte.to_N b)) <$> bytes).

Section IpfsFetch.

(** The [cat] call of the IPFS client, a call over the network. *)
Variable ipfs_cat : IpfsClient → string → CatStream.

(** [catToBuffer(cid)]: the chunks are collected, joined with
    [Buffer.concat], and copied into a new [Uint8Array] of the same
    length. *)
Definition IpfsPlugin_catToBuffer (p : IpfsPlugin) (cid : string)
    : Result (list Byte.byte) :=
  match _ipfs p with
  | None => Throw (mkError "TypeError: Cannot read properties of undefined")
  | Some ipfs =>
      let stream := ipfs_cat ipfs cid in
      match failure stream with
      | Some e => Throw e
      | None =>
          let result := concat (chunks stream) in
          let u8Array := Uint8Array_new (length result) in
          Uint8Array_set u8Array result
      end
  end.

(** [cat(cid)] is [catToBuffer(cid)]. *)
Definition IpfsPlugin_cat (p : IpfsPlugin) (cid : string) : Result (list Byte.byte) :=
  IpfsPlugin_catToBuffer p cid.

(** [catToString(cid)]: [(await this.catToBuffer(cid)).toString()]. *)
Definition IpfsPlugin_catToString (p : IpfsPlugin) (cid : string) : Result string :=
  buffer ← IpfsPlugin_catToBuffer p cid;
  Return (Uint8Array_toString buffer).

End IpfsFetch.

(** A store with one IPFS config object. *)
Definition exampleIpfsConfigs : gmap ref IpfsConfig :=
  {[ 3 := {| provider := "http://a:5001" |} ]}.

(** The names of the members of [Object.prototype], which the plain
    objects [counts] and [data] of [query] inherit; the dictionaries of
    [makeRepeatedUnique_reduce] and [build_data] stand for these objects on
    all other names. *)
Definition object_prototype_members : list string :=
  [ "constructor"; "hasOwnProperty"; "isPrototypeOf"; "propertyIsEnumerable";
    "toLocaleString"; "toString"; "valueOf"; "__proto__";
    "__defineGetter__"; "__defineSetter__"; "__lookupGetter__"; "__lookupSetter__" ].

Definition plain_names (names : list string) : Prop :=
  Forall (λ n, n ∉ object_prototype_members) names.

(** The characters of a comma-separated list of decimal numbers. *)
Fixpoint digits_and_commas (s : string) : bool :=
  match s with
  | EmptyString => true
  | String c s' => (is_digit c || bool_decide (c = ","%char)) && digits_and_commas s'
  end.

(** [invoke] from its call to its first suspension: [loadWeb3Api] is
    called at once and runs up to its own first [await]; whether it returned
    or is suspended there, [invoke] then waits for its promise.  The call is
    recorded as a new task of the world. *)
Definition invoke_enter (w : World) (options : InvokeApiOptions) : World :=
  match loadWeb3Api_enter (client w) (opt_uri options) with
  | Finished r =>
      {| client := client w;
         tasks := tasks w ++ [Settled r];
         resolveCalls := resolveCalls w |}
  | AwaitResolveUri u =>
      {| client := client w;
         tasks := tasks w ++ [Resolving u];
         resolveCalls := u :: resolveCalls w |}
  end.

(** The loop [for (const invocation of invokeOptions)] of [query]: it calls
    [this.invoke({ ...invocation, decode: true })] for every operation and
    collects the promises, without awaiting any of them. *)
Definition query_start_invocations (c : Web3ApiClient)
    (invokeOptions : list InvokeApiOptions) : World :=
  foldl (λ w invocation,
           invoke_enter w {| opt_uri := opt_uri invocation;
                             opt_method := opt_method invocation;
                             opt_input := opt_input invocation;
                             opt_decode := true |})
        {| client := c; tasks := []; resolveCalls := [] |}
        invokeOptions.

(** An alias into a cycle that does not contain it: [x] aliases to [a],
    [a] to [b] and [b] back to [a]. *)
Definition cycleBehindAlias : list UriRedirect :=
  [ {| from := "w3://x/x"; to := ToUri "w3://a/a" |};
    {| from := "w3://a/a"; to := ToUri "w3://b/b" |};
    {| from := "w3://b/b"; to := ToUri "w3://a/a" |} ].

(** * Properties *)

(** ** Uris *)

Lemma Uri_equals_true a b : Uri_equals a b = true ↔ a = b.
Proof.
  unfold Uri_equals. rewrite bool_decide_eq_true.
  destruct a, b; simpl; split; congruence.
Qed.

Lemma Uri_equals_decide a b : Uri_equals a b = bool_decide (a = b).
Proof.
  apply eq_true_iff_eq. rewrite Uri_equals_true, bool_decide_eq_true. tauto.
Qed.

(** ** The implementation index *)

Lemma findIndex_lower {A} (p : A → bool) l : (-1 ≤ findIndex p l)%Z.
Proof.
  induction l as [|x l IH]; simpl; [lia|].
  destruct (p x); [lia|].
  destruct (Z.eqb_spec (findIndex p l) (-1)); lia.
Qed.

Lemma findIndex_found {A} (p : A → bool) l :
  (-1 <? findIndex p l)%Z = existsb p l.
Proof.
  induction l as [|x l IH]; simpl; [done|].
  destruct (p x); simpl; [done|].
  rewrite <- IH. pose proof (findIndex_lower p l).
  destruct (Z.eqb_spec (findIndex p l) (-1)) as [-> | Hne]; [done|].
  apply eq_true_iff_eq. rewrite !Z.ltb_lt. lia.
Qed.

Lemma implementedApi_decide abstractApi l :
  (-1 <? findIndex (λ u, Uri_equals u abstractApi) l)%Z
  = bool_decide (abstractApi ∈ l).
Proof.
  rewrite findIndex_found. apply eq_true_iff_eq.
  rewrite existsb_exists, bool_decide_eq_true. split.
  - intros (u & Hin & Heq). apply Uri_equals_true in Heq. subst.
    by apply list_elem_of_In.
  - intros Hin. exists abstractApi. split; [by apply list_elem_of_In|].
    by apply Uri_equals_true.
Qed.

Section GetImplementationsFacts.

Variable newUri : string → Result Uri.

Lemma parsed_Some text u : parsed newUri text = Some u ↔ newUri text = Return u.
Proof. unfold parsed. destruct (newUri text); split; congruence. Qed.

Lemma getImplementations_loop_contribution abstractApi redirects :
  Forall (well_formed_redirect newUri) redirects →
  ∀ result,
    getImplementations_loop newUri abstractApi redirects result
    = Return (result ++ omap (contribution newUri abstractApi) redirects).
Proof.
  induction 1 as [|r rs [[f Hf] Hto] _ IH]; intros result; simpl.
  { by rewrite app_nil_r. }
  unfold contribution at 1. destruct (to r) as [target | pkg].
  - destruct Hto as [t Ht]. rewrite Hf.
    apply parsed_Some in Hf as ->. simpl.
    rewrite Uri_equals_decide.
    rewrite (bool_decide_ext (Some f = Some abstractApi) (f = abstractApi))
      by (split; congruence).
    case_bool_decide.
    + rewrite Ht. apply parsed_Some in Ht as ->. simpl.
      by rewrite IH, <- app_assoc.
    + apply IH.
  - rewrite implementedApi_decide. case_bool_decide.
    + rewrite Hf. apply parsed_Some in Hf as ->. simpl.
      by rewrite IH, <- app_assoc.
    + apply IH.
Qed.

End GetImplementationsFacts.

(** C1 (as amended).  On a table whose texts the Uri constructor accepts,
    [getImplementations] returns, in table order, exactly: the [from] Uri of
    every plugin binding whose [implemented] list contains the abstract Uri,
    and the [to] Uri of every alias whose [from] is the abstract Uri; when no
    entry contributes the result is the empty array, not an error. *)
Theorem getImplementations_table_order
    (newUri : string → Result Uri) (abstractApi : Uri)
    (redirects : list UriRedirect)
    (Hwf : Forall (well_formed_redirect newUri) redirects) :
  getImplementations newUri abstractApi redirects
    = Return (omap (contribution newUri abstractApi) redirects)
  ∧ (∀ u, u ∈ omap (contribution newUri abstractApi) redirects ↔
          ∃ r, r ∈ redirects ∧ contribution newUri abstractApi r = Some u)
  ∧ ((∀ r, r ∈ redirects → contribution newUri abstractApi r = None) →
     getImplementations newUri abstractApi redirects = Return []).
Proof.
  assert (Hres : getImplementations newUri abstractApi redirects
                 = Return (omap (contribution newUri abstractApi) redirects)).
  { unfold getImplementations.
    by rewrite getImplementations_loop_contribution. }
  split; [exact Hres|]. split.
  - intros u. apply list_elem_of_omap.
  - intros Hnone. rewrite Hres. f_equal.
    clear Hres Hwf. induction redirects as [|r rs IH]; [done|].
    simpl. rewrite Hnone by left. apply IH.
    intros r' Hr'. apply Hnone. by right.
Qed.

Lemma well_formed_canonical redirects :
  Forall (well_formed_redirect Uri_of_canonical) redirects.
Proof.
  apply Forall_forall. intros r _. split; [by eexists|].
  destruct (to r); [by eexists|done].
Qed.

(** The table of the repository's own test: the alias from the interface
    contributes its target, the two implementing plugins their [from]. *)
Lemma getImplementations_table_order_witness :
  getImplementations Uri_of_canonical abstractInterface testTable
  = Return [mkUri "w3://one/1"; abstractInterface; mkUri "w3://something/else"].
Proof.
  rewrite (proj1 (getImplementations_table_order Uri_of_canonical
                    abstractInterface testTable
                    (well_formed_canonical testTable))).
  reflexivity.
Defined.

(** C1 (as stated) fails: the alias from the abstract interface to [one/1]
    is returned by the code although [one/1] is the [from] of no binding, so
    the rule of the claim selects nothing. *)
Lemma getImplementations_alias_counterexample :
  getImplementations Uri_of_canonical abstractInterface aliasOnly
    = Return [mkUri "w3://one/1"]
  ∧ spec_implementations Uri_of_canonical abstractInterface aliasOnly = []
  ∧ getImplementations Uri_of_canonical abstractInterface aliasOnly
    ≠ Return (spec_implementations Uri_of_canonical abstractInterface aliasOnly).
Proof. split; [reflexivity|]. split; [reflexivity|]. discriminate. Qed.

(** In the other direction, an alias to an implementing binding is not
    followed: only the binding itself is returned. *)
Example getImplementations_alias_not_followed :
  getImplementations Uri_of_canonical abstractInterface aliasToImplementer
    = Return [mkUri "w3://something/else"]
  ∧ spec_implementations Uri_of_canonical abstractInterface aliasToImplementer
    = [mkUri "w3://something/else"; mkUri "w3://something/else"].
Proof. split; reflexivity. Qed.

(** ** The constructor and the shared redirect array *)

Section ConstructorFacts.

Variable getDefaultRedirects : unit → list UriRedirect.

Lemma Web3ApiClient_new_config s config cfg user showLogging :
  configs s !! config = Some cfg →
  arrays s !! redirects cfg = Some user →
  Web3ApiClient_new getDefaultRedirects s (Some config) showLogging
  = Some ({| configs := configs s;
             arrays := <[redirects cfg := user ++ getDefaultRedirects ()]> (arrays s) |},
          {| _apiCache := ∅; _config := config; _showLogging := showLogging |}).
Proof.
  intros Hcfg Harr. unfold Web3ApiClient_new. simpl.
  rewrite Hcfg. simpl. by rewrite Harr.
Qed.

(** Without a config the client gets a new array holding the defaults. *)
Lemma Web3ApiClient_new_default s showLogging :
  ∃ s' c, Web3ApiClient_new getDefaultRedirects s None showLogging = Some (s', c)
          ∧ Web3ApiClient_redirects s' c = Some (getDefaultRedirects ()).
Proof.
  unfold Web3ApiClient_new, Web3ApiClient_redirects. simpl.
  rewrite lookup_insert_eq. simpl. rewrite lookup_insert_eq. simpl.
  do 2 eexists. split; [reflexivity|]. simpl.
  rewrite lookup_insert_eq. simpl. by rewrite lookup_insert_eq.
Qed.

End ConstructorFacts.

Lemma find_app_l {A} (p : A → bool) (l1 l2 : list A) :
  (∃ x, x ∈ l1 ∧ p x = true) → find p (l1 ++ l2) = find p l1.
Proof.
  intros (x & Hin & Hp). induction l1 as [|y l1 IH]; [by inversion Hin|].
  simpl. destruct (p y) eqn:Hy; [done|].
  apply IH. inversion Hin; subst; [congruence|done].
Qed.

(** C9.  The constructor appends the default redirects to the supplied
    list, whatever it holds: [redirects()] is the user-supplied entries
    followed by the defaults.  Every explicit entry therefore comes earlier
    than every default, so that a lookup in table order for which some
    explicit entry matches is answered by the explicit entries alone. *)
Theorem constructor_appends_defaults
    (getDefaultRedirects : unit → list UriRedirect)
    (s : Store) (config : ref) (cfg : ClientConfig) (user : list UriRedirect)
    (showLogging : bool)
    (Hcfg : configs s !! config = Some cfg)
    (Harr : arrays s !! redirects cfg = Some user) :
  ∃ s' c,
    Web3ApiClient_new getDefaultRedirects s (Some config) showLogging = Some (s', c)
    ∧ Web3ApiClient_redirects s' c = Some (user ++ getDefaultRedirects ())
    ∧ ∀ matches : UriRedirect → bool,
        (∃ r, r ∈ user ∧ matches r = true) →
        find matches (user ++ getDefaultRedirects ()) = find matches user.
Proof.
  do 2 eexists. split; [by apply Web3ApiClient_new_config|]. split.
  - unfold Web3ApiClient_redirects. simpl. rewrite Hcfg. simpl.
    by rewrite lookup_insert_eq.
  - intros matches. apply find_app_l.
Qed.

Lemma constructor_appends_defaults_witness :
  ∃ s' c,
    Web3ApiClient_new exampleDefaults exampleStore (Some 0) false = Some (s', c)
    ∧ Web3ApiClient_redirects s' c
      = Some ({| from := "w3://ens/ipfs.web3api.eth"; to := ToUri "w3://one/1" |}
              :: exampleDefaults ()).
Proof.
  destruct (constructor_appends_defaults exampleDefaults exampleStore 0
              {| redirects := 7 |}
              [ {| from := "w3://ens/ipfs.web3api.eth"; to := ToUri "w3://one/1" |} ]
              false eq_refl eq_refl) as (s' & c & Hnew & Hred & _).
  exists s', c. split; [exact Hnew | exact Hred].
Defined.

(** C10.  The constructor pushes the defaults into the caller's own array:
    after one construction the array the config refers to is extended, and a
    second client built from the same config object sees the defaults twice,
    as does the first client from then on. *)
Theorem constructor_mutates_config
    (getDefaultRedirects : unit → list UriRedirect)
    (s : Store) (config : ref) (cfg : ClientConfig) (user : list UriRedirect)
    (log1 log2 : bool)
    (Hcfg : configs s !! config = Some cfg)
    (Harr : arrays s !! redirects cfg = Some user) :
  ∃ s1 c1 s2 c2,
    Web3ApiClient_new getDefaultRedirects s (Some config) log1 = Some (s1, c1)
    ∧ Web3ApiClient_new getDefaultRedirects s1 (Some config) log2 = Some (s2, c2)
    ∧ config_redirects s1 config = Some (user ++ getDefaultRedirects ())
    ∧ Web3ApiClient_redirects s1 c1 = Some (user ++ getDefaultRedirects ())
    ∧ Web3ApiClient_redirects s2 c2
      = Some (user ++ getDefaultRedirects () ++ getDefaultRedirects ())
    ∧ Web3ApiClient_redirects s2 c1
      = Some (user ++ getDefaultRedirects () ++ getDefaultRedirects ())
    ∧ config_redirects s2 config
      = Some (user ++ getDefaultRedirects () ++ getDefaultRedirects ()).
Proof.
  do 4 eexists. split; [by apply Web3ApiClient_new_config|]. split.
  { eapply Web3ApiClient_new_config; simpl; [exact Hcfg|].
    apply lookup_insert_eq. }
  unfold config_redirects, Web3ApiClient_redirects. simpl.
  rewrite Hcfg. simpl.
  rewrite insert_insert_eq, !lookup_insert_eq, <- app_assoc. done.
Qed.

Lemma constructor_mutates_config_witness :
  ∃ s1 c1 s2 c2,
    Web3ApiClient_new exampleDefaults exampleStore (Some 0) false = Some (s1, c1)
    ∧ Web3ApiClient_new exampleDefaults s1 (Some 0) false = Some (s2, c2)
    ∧ config_redirects s2 0
      = Some ({| from := "w3://ens/ipfs.web3api.eth"; to := ToUri "w3://one/1" |}
              :: exampleDefaults () ++ exampleDefaults ()).
Proof.
  destruct (constructor_mutates_config exampleDefaults exampleStore 0
              {| redirects := 7 |}
              [ {| from := "w3://ens/ipfs.web3api.eth"; to := ToUri "w3://one/1" |} ]
              false false eq_refl eq_refl)
    as (s1 & c1 & s2 & c2 & H1 & H2 & _ & _ & _ & _ & H3).
  exists s1, c1, s2, c2. split; [exact H1|]. split; [exact H2 | exact H3].
Defined.

(** ** The Api cache under interleaving *)

(** An invariant of single steps holds along every run. *)
Lemma run_invariant (Inv : World → Prop) :
  (∀ w ev w', Inv w → step w ev = Some w' → Inv w') →
  ∀ evs w w', Inv w → run w evs = Some w' → Inv w'.
Proof.
  intros Hstep. induction evs as [|ev evs IH]; simpl; intros w w' Hw Hrun.
  - by injection Hrun as <-.
  - destruct (step w ev) as [w1|] eqn:Hs; [|done]. eauto.
Qed.

Lemma run_app w evs1 evs2 :
  run w (evs1 ++ evs2) = run w evs1 ≫= λ w1, run w1 evs2.
Proof.
  revert w. induction evs1 as [|ev evs1 IH]; intros w; simpl; [done|].
  destruct (step w ev); [apply IH|done].
Qed.

(** Replacing a task by one of the same kind for a key leaves the number
    of attempts in flight for that key unchanged. *)
Lemma in_flight_insert key (ts : list Task) i t t' :
  ts !! i = Some t → resolving key t = resolving key t' →
  length (filter (λ t, resolving key t = true) (<[i := t']> ts))
  = length (filter (λ t, resolving key t = true) ts).
Proof.
  revert i. induction ts as [|x ts IH]; intros i Hi Heq; [done|].
  destruct i as [|i]; simpl in *.
  - injection Hi as ->. rewrite !filter_cons. rewrite Heq.
    by repeat case_decide.
  - rewrite !filter_cons. case_decide; simpl; by rewrite (IH i).
Qed.

Lemma in_flight_positive key (ts : list Task) i t :
  ts !! i = Some t → resolving key t = true →
  0 < length (filter (λ t, resolving key t = true) ts).
Proof.
  intros Hi Ht.
  assert (Hin : t ∈ filter (λ t, resolving key t = true) ts).
  { apply list_elem_of_filter. split; [done|]. by eapply list_elem_of_lookup_2. }
  destruct (filter _ ts); [by inversion Hin | simpl; lia].
Qed.

Lemma in_flight_replicate key u n :
  uri u = key →
  length (filter (λ t, resolving key t = true) (replicate n (Resolving u))) = n.
Proof.
  intros Hu. induction n as [|n IH]; [done|]. simpl.
  rewrite filter_cons_True; [simpl; by rewrite IH|].
  simpl. by apply bool_decide_eq_true.
Qed.

Lemma attempts_replicate key u n :
  uri u = key → length (filter (λ u, uri u = key) (replicate n u)) = n.
Proof.
  intros Hu. induction n as [|n IH]; [done|]. simpl.
  rewrite filter_cons_True by done. simpl. by rewrite IH.
Qed.

Lemma settled_entry_step key api n w ev w' :
  settled_entry key api n w → step w ev = Some w' → settled_entry key api n w'.
Proof.
  intros (Hc & Hfl & Hat) Hstep. unfold settled_entry, in_flight, attempts in *.
  destruct ev as [i | i resolved]; simpl in Hstep.
  - destruct (tasks w !! i) as [[u| |]|] eqn:Hi; try done.
    unfold loadWeb3Api_enter in Hstep.
    destruct (_apiCache (client w) !! uri u) as [cached|] eqn:Hu;
      injection Hstep as <-; simpl.
    + split; [done|]. split; [|done].
      by rewrite (in_flight_insert key _ i (NotStarted u)).
    + assert (uri u ≠ key) by congruence.
      split; [done|]. split.
      * rewrite (in_flight_insert key _ i (NotStarted u)); [done..|].
        simpl. symmetry. by apply bool_decide_eq_false.
      * by rewrite filter_cons_False.
  - destruct (tasks w !! i) as [[|u|]|] eqn:Hi; try done.
    assert (Hne : uri u ≠ key).
    { intros Hu. pose proof (in_flight_positive key _ i _ Hi) as Hpos.
      simpl in Hpos. rewrite bool_decide_eq_true in Hpos. specialize (Hpos Hu). lia. }
    assert (Hkind : resolving key (Resolving u) = false)
      by (simpl; by apply bool_decide_eq_false).
    destruct resolved as [[api'|]|e]; simpl in Hstep; injection Hstep as <-; simpl;
      (split; [|split; [|done]]);
      try (rewrite (in_flight_insert key _ i (Resolving u)); done);
      try done.
    by rewrite lookup_insert_ne.
Qed.

(** Entries are never removed. *)
Lemma cached_step key w ev w' :
  is_Some (_apiCache (client w) !! key) → step w ev = Some w' →
  is_Some (_apiCache (client w') !! key).
Proof.
  intros Hc Hstep. destruct ev as [i | i resolved]; simpl in Hstep.
  - destruct (tasks w !! i) as [[u| |]|]; try done.
    destruct (loadWeb3Api_enter (client w) u); by injection Hstep as <-.
  - destruct (tasks w !! i) as [[|u|]|]; try done.
    destruct resolved as [[api'|]|e]; simpl in Hstep; injection Hstep as <-;
      simpl; [|done..].
    rewrite lookup_insert. by case_decide.
Qed.

(** N calls for an uncached Uri, one after the other before any resolution
    settles: every one of them starts an attempt. *)
Lemma run_calls c u done todo started :
  _apiCache c !! uri u = None →
  run {| client := c;
         tasks := replicate done (Resolving u) ++ replicate todo (NotStarted u);
         resolveCalls := started |}
      (Call <$> seq done todo)
  = Some {| client := c;
            tasks := replicate (done + todo) (Resolving u);
            resolveCalls := replicate todo u ++ started |}.
Proof.
  intros Hmiss. revert done started.
  induction todo as [|todo IH]; intros done started.
  - simpl. by rewrite app_nil_r, Nat.add_0_r.
  - cbn [seq fmap list_fmap run]. unfold step. cbn [tasks client resolveCalls].
    rewrite lookup_app_r by (rewrite length_replicate; lia).
    rewrite length_replicate, Nat.sub_diag. cbn [replicate lookup list_lookup].
    unfold loadWeb3Api_enter. rewrite Hmiss.
    cbn [tasks client resolveCalls].
    replace (<[done := Resolving u]>
               (replicate done (Resolving u) ++ NotStarted u :: replicate todo (NotStarted u)))
      with (replicate (S done) (Resolving u) ++ replicate todo (NotStarted u)).
    + rewrite IH. f_equal.
      replace (S done + todo) with (done + S todo) by lia.
      f_equal. change (u :: replicate todo u) with (replicate (S todo) u).
      by rewrite replicate_S_end, <- app_assoc.
    + rewrite replicate_S_end, <- app_assoc. simpl.
      rewrite insert_app_r_alt by (rewrite length_replicate; lia).
      by rewrite length_replicate, Nat.sub_diag.
Qed.

Lemma loadWeb3Api_resume_observed c u resolved :
  (loadWeb3Api_resume c u resolved).2 = observed u resolved.
Proof. by destruct resolved as [[?|]|?]. Qed.

Lemma in_flight_insert_started key (ts : list Task) i t t' :
  ts !! i = Some t → resolving key t = false → resolving key t' = true →
  length (filter (λ t, resolving key t = true) (<[i := t']> ts))
  = S (length (filter (λ t, resolving key t = true) ts)).
Proof.
  revert i. induction ts as [|x ts IH]; intros i Hi Hold Hnew; [done|].
  destruct i as [|i]; simpl in *.
  - injection Hi as ->. rewrite filter_cons_True by done.
    rewrite filter_cons_False by (by rewrite Hold). done.
  - rewrite !filter_cons. case_decide; simpl; by rewrite (IH i).
Qed.

(** Resolutions in flight settling one after the other, in any order and
    with any outcomes: every call gets what its own resolution gave, and the
    calls that are not resumed are left as they are. *)
Lemma run_settlements (settlements : list (nat * Result (option Api))) :
  ∀ w,
    NoDup settlements.*1 →
    (∀ i r, (i, r) ∈ settlements → ∃ u, tasks w !! i = Some (Resolving u)) →
    ∃ w',
      run w ((λ s, Resume s.1 s.2) <$> settlements) = Some w'
      ∧ (∀ i r u, (i, r) ∈ settlements → tasks w !! i = Some (Resolving u) →
           tasks w' !! i = Some (Settled (observed u r)))
      ∧ (∀ j, j ∉ settlements.*1 → tasks w' !! j = tasks w !! j).
Proof.
  induction settlements as [|[i r] ss IH]; intros w Hnd Hres.
  { exists w. split; [done|]. split; [|done]. intros i r u Hin. by inversion Hin. }
  cbn [fmap list_fmap fst] in Hnd. apply NoDup_cons in Hnd as [Hi Hnd].
  destruct (Hres i r) as [u Hu]; [by left|].
  assert (Hlen : i < length (tasks w)) by (by eapply lookup_lt_Some).
  cbn [fmap list_fmap run fst snd]. unfold step. rewrite Hu.
  pose proof (loadWeb3Api_resume_observed (client w) u r) as Hobs.
  destruct (loadWeb3Api_resume (client w) u r) as [c1 r1]. simpl in Hobs. subst r1.
  destruct (IH {| client := c1;
                  tasks := <[i := Settled (observed u r)]> (tasks w);
                  resolveCalls := resolveCalls w |} Hnd)
    as (w' & Hrun & Hown & Hrest).
  { intros j r' Hin. cbn [tasks].
    assert (i ≠ j).
    { intros ->. apply Hi. by apply (list_elem_of_fmap_2 fst ss (j, r')). }
    rewrite list_lookup_insert_ne by done. apply (Hres j r'). by right. }
  cbn [tasks] in Hown, Hrest.
  exists w'. split; [exact Hrun|]. split.
  - intros j r' u' Hin Hj. apply elem_of_cons in Hin as [[= -> ->]|Hin].
    + rewrite (Hrest i Hi), list_lookup_insert_eq by done. congruence.
    + assert (i ≠ j).
      { intros ->. apply Hi. by apply (list_elem_of_fmap_2 fst ss (j, r')). }
      apply Hown; [done|]. by rewrite list_lookup_insert_ne.
  - intros j Hj. cbn [fmap list_fmap fst] in Hj.
    apply not_elem_of_cons in Hj as [Hne Hj].
    rewrite (Hrest j Hj). by rewrite list_lookup_insert_ne.
Qed.

(** C2 (as amended).  The cache has no pending marker: a call starts a
    resolution attempt whenever the key is not cached when it is made.  [n]
    calls for the same Uri, made before any resolution settles, start [n]
    attempts that are all in flight together, and each caller observes the
    outcome of its own attempt, in whatever order and with whatever
    outcomes the attempts settle. *)
Theorem concurrent_loads_each_resolve (c : Web3ApiClient) (u : Uri) (n : nat)
    (Hmiss : _apiCache c !! uri u = None) :
  (∀ w i, tasks w !! i = Some (NotStarted u) →
     _apiCache (client w) !! uri u = None →
     ∃ w1, step w (Call i) = Some w1
           ∧ tasks w1 !! i = Some (Resolving u)
           ∧ attempts w1 (uri u) = S (attempts w (uri u))
           ∧ in_flight w1 (uri u) = S (in_flight w (uri u)))
  ∧ ∃ w,
    run (callers c (replicate n u)) (Call <$> seq 0 n) = Some w
    ∧ in_flight w (uri u) = n
    ∧ attempts w (uri u) = n
    ∧ (∀ i resolved, i < n →
        ∃ w', step w (Resume i resolved) = Some w'
              ∧ tasks w' !! i = Some (Settled (observed u resolved)))
    ∧ (∀ settlements : list (nat * Result (option Api)),
         NoDup settlements.*1 →
         Forall (λ s, s.1 < n) settlements →
         ∃ w', run w ((λ s, Resume s.1 s.2) <$> settlements) = Some w'
               ∧ (∀ i resolved, (i, resolved) ∈ settlements →
                    tasks w' !! i = Some (Settled (observed u resolved)))
               ∧ (∀ i, i < n → i ∉ settlements.*1 →
                    tasks w' !! i = Some (Resolving u))).
Proof.
  split.
  { intros w i Hi Hw. unfold step. rewrite Hi. unfold loadWeb3Api_enter.
    rewrite Hw. eexists. split; [reflexivity|]. cbn [tasks resolveCalls client].
    split; [apply list_lookup_insert_eq; by eapply lookup_lt_Some|]. split.
    - unfold attempts. cbn [resolveCalls]. by rewrite filter_cons_True.
    - unfold in_flight. cbn [tasks].
      apply (in_flight_insert_started _ _ _ (NotStarted u)); [done..|].
      simpl. by apply bool_decide_eq_true. }
  eexists. split.
  { unfold callers. rewrite fmap_replicate.
    apply (run_calls c u 0 n [] Hmiss). }
  unfold in_flight, attempts. cbn [tasks resolveCalls client].
  rewrite app_nil_r. split; [by apply in_flight_replicate|].
  split; [by apply attempts_replicate|]. split.
  - intros i resolved Hi. unfold step. cbn [tasks client resolveCalls].
    rewrite lookup_replicate_2 by done.
    destruct (loadWeb3Api_resume c u resolved) as [c' r] eqn:Hres.
    eexists. split; [reflexivity|]. cbn [tasks].
    rewrite list_lookup_insert_eq by (rewrite length_replicate; lia).
    pose proof (loadWeb3Api_resume_observed c u resolved) as Hobs.
    rewrite Hres in Hobs. simpl in Hobs. by rewrite Hobs.
  - intros settlements Hnd Hbound. rewrite Forall_forall in Hbound.
    destruct (run_settlements settlements
                {| client := c; tasks := replicate (0 + n) (Resolving u);
                   resolveCalls := replicate n u |} Hnd)
      as (w' & Hrun & Hown & Hrest).
    { intros i r Hin. exists u. cbn [tasks].
      apply lookup_replicate_2. apply (Hbound _ Hin). }
    cbn [tasks] in Hown, Hrest.
    exists w'. split; [exact Hrun|]. split.
    + intros i r Hin. apply (Hown i r u Hin).
      apply lookup_replicate_2. apply (Hbound _ Hin).
    + intros i Hi Hnot. rewrite (Hrest i Hnot). by apply lookup_replicate_2.
Qed.

Lemma concurrent_loads_each_resolve_witness :
  ∃ w,
    run (callers freshClient (replicate 3 uriA)) (Call <$> seq 0 3) = Some w
    ∧ in_flight w (uri uriA) = 3
    ∧ attempts w (uri uriA) = 3
    ∧ ∃ w', run w [Resume 2 (Return (Some apiB)); Resume 0 (Return (Some apiA))]
            = Some w'
            ∧ tasks w' !! 0 = Some (Settled (Return apiA))
            ∧ tasks w' !! 1 = Some (Resolving uriA)
            ∧ tasks w' !! 2 = Some (Settled (Return apiB)).
Proof.
  destruct (concurrent_loads_each_resolve freshClient uriA 3 eq_refl)
    as (_ & w & Hrun & Hfl & Hat & _ & Hsettle).
  exists w. split; [exact Hrun|]. split; [exact Hfl|]. split; [exact Hat|].
  destruct (Hsettle [(2, Return (Some apiB)); (0, Return (Some apiA))])
    as (w' & Hrun' & Hown & Hrest).
  - apply (bool_decide_unpack _). vm_compute. exact I.
  - repeat constructor; simpl; lia.
  - exists w'. split; [exact Hrun'|]. split; [|split].
    + apply (Hown 0 (Return (Some apiA))). right. left.
    + apply (Hrest 1); [lia|]. apply (bool_decide_unpack _). vm_compute. exact I.
    + apply (Hown 2 (Return (Some apiB))). left.
Defined.

(** C2 (as stated) fails: two calls for the same uncached Uri put two
    resolution attempts in flight, and the two callers observe the handles of
    their own attempts, which differ. *)
Lemma single_flight_counterexample :
  ∃ w w',
    run (callers freshClient [uriA; uriA]) [Call 0; Call 1] = Some w
    ∧ in_flight w (uri uriA) = 2
    ∧ attempts w (uri uriA) = 2
    ∧ ¬ single_flight w
    ∧ run w [Resume 0 (Return (Some apiA)); Resume 1 (Return (Some apiB))] = Some w'
    ∧ tasks w' = [Settled (Return apiA); Settled (Return apiB)]
    ∧ apiA ≠ apiB.
Proof.
  do 2 eexists. split; [reflexivity|]. split; [reflexivity|].
  split; [reflexivity|]. split.
  - intros Hsf. specialize (Hsf (uri uriA)). vm_compute in Hsf. lia.
  - split; [reflexivity|]. split; [reflexivity|]. discriminate.
Qed.

(** C6.  A failed resolution is not cached: when the resolution a call
    awaits fails (a rejection, or [undefined]), the client is left as it was,
    the caller gets the error, and while the key is uncached the next call
    for the Uri calls the resolution procedure again, whose success is then
    stored. *)
Theorem failed_resolution_not_cached (w : World) (i : nat) (u : Uri)
    (resolved : Result (option Api))
    (Htask : tasks w !! i = Some (Resolving u))
    (Hfail : resolution_failed resolved) :
  ∃ w' e,
    step w (Resume i resolved) = Some w'
    ∧ client w' = client w
    ∧ tasks w' !! i = Some (Settled (Throw e))
    ∧ e = match resolved with
          | Throw e0 => e0
          | Return _ => mkError ("Unable to resolve Web3API at uri: " +:+ uri u)
          end
    ∧ (_apiCache (client w) !! uri u = None →
       _apiCache (client w') !! uri u = None
       ∧ (∀ j, tasks w' !! j = Some (NotStarted u) →
            ∃ w'', step w' (Call j) = Some w''
                   ∧ tasks w'' !! j = Some (Resolving u)
                   ∧ attempts w'' (uri u) = S (attempts w' (uri u)))
       ∧ (∀ api, loadWeb3Api (client w') u (Return (Some api))
                 = (set_apiCache (client w) (<[uri u := api]> (_apiCache (client w))),
                    Return api))).
Proof.
  assert (Hlen : i < length (tasks w)) by (by eapply lookup_lt_Some).
  unfold step. rewrite Htask.
  destruct resolved as [[api|]|e0]; [done| |]; simpl;
    (do 2 eexists; split; [reflexivity|]; cbn [client tasks resolveCalls];
     split; [done|]; split; [by rewrite list_lookup_insert_eq|];
     split; [done|]; intros Hmiss; split; [done|]; split;
     [ intros j Hj;
       assert (j < length (tasks w))
         by (apply lookup_lt_Some in Hj; by rewrite length_insert in Hj);
       rewrite Hj; unfold loadWeb3Api_enter; rewrite Hmiss;
       eexists; split; [reflexivity|]; cbn [client tasks resolveCalls];
       split; [apply list_lookup_insert_eq; by rewrite length_insert|];
       unfold attempts; cbn [resolveCalls]; by rewrite filter_cons_True
     | intros api; unfold loadWeb3Api, loadWeb3Api_enter; by rewrite Hmiss ]).
Qed.

Lemma failed_resolution_not_cached_witness :
  ∃ w' e,
    step {| client := freshClient; tasks := [Resolving uriA]; resolveCalls := [uriA] |}
         (Resume 0 (Return None)) = Some w'
    ∧ client w' = freshClient
    ∧ tasks w' !! 0 = Some (Settled (Throw e)).
Proof.
  destruct (failed_resolution_not_cached
              {| client := freshClient; tasks := [Resolving uriA]; resolveCalls := [uriA] |}
              0 uriA (Return None) eq_refl I)
    as (w' & e & Hstep & Hc & Ht & _).
  exists w', e. split; [exact Hstep|]. split; [exact Hc | exact Ht].
Defined.

(** C7 (as amended).  A cached entry is never removed, and a call made while
    the key is cached returns the cached handle without calling the
    resolution procedure.  The entry keeps its handle, and no further
    resolution is ever started for the key, provided no attempt for the key
    was still in flight when the handle was cached.  An attempt for the key
    that is in flight overwrites the entry when it succeeds: the entry is
    then the handle of that attempt, which is what later calls get. *)
Theorem cache_entry_kept (w w' : World) (evs : list Event) (key : string) (api : Api)
    (Hrun : run w evs = Some w')
    (Hcached : _apiCache (client w) !! key = Some api) :
  is_Some (_apiCache (client w') !! key)
  ∧ (∀ i u, uri u = key → tasks w !! i = Some (NotStarted u) →
       ∃ w1, step w (Call i) = Some w1
             ∧ tasks w1 !! i = Some (Settled (Return api))
             ∧ client w1 = client w
             ∧ resolveCalls w1 = resolveCalls w)
  ∧ (in_flight w key = 0 →
       _apiCache (client w') !! key = Some api
       ∧ in_flight w' key = 0
       ∧ attempts w' key = attempts w key)
  ∧ (∀ i u api', uri u = key → tasks w !! i = Some (Resolving u) →
       ∃ w1, step w (Resume i (Return (Some api'))) = Some w1
             ∧ tasks w1 !! i = Some (Settled (Return api'))
             ∧ _apiCache (client w1) !! key = Some api'
             ∧ ∀ j u', uri u' = key → tasks w1 !! j = Some (NotStarted u') →
                 ∃ w2, step w1 (Call j) = Some w2
                       ∧ tasks w2 !! j = Some (Settled (Return api'))).
Proof.
  split; [|split; [|split]].
  - eapply (run_invariant (λ w, is_Some (_apiCache (client w) !! key)));
      [| |exact Hrun]; [|by eexists].
    intros ????. by apply cached_step.
  - intros i u Hu Hi. unfold step. rewrite Hi. unfold loadWeb3Api_enter.
    rewrite Hu, Hcached. eexists. split; [reflexivity|]. simpl.
    split; [|done]. apply list_lookup_insert_eq. by eapply lookup_lt_Some.
  - intros Hfl.
    apply (run_invariant (settled_entry key api (attempts w key))
             (settled_entry_step key api _) evs w w'); [|exact Hrun].
    by repeat split.
  - intros i u api' Hu Hi. unfold step. rewrite Hi. simpl.
    eexists. split; [reflexivity|]. cbn [tasks client].
    assert (Hlen : i < length (tasks w)) by (by eapply lookup_lt_Some).
    split; [by apply list_lookup_insert_eq|].
    split; [simpl; rewrite Hu; apply lookup_insert_eq|].
    intros j u' Hu' Hj. rewrite Hj. unfold loadWeb3Api_enter. simpl.
    rewrite Hu', <- Hu, lookup_insert_eq.
    eexists. split; [reflexivity|]. simpl.
    apply list_lookup_insert_eq. by eapply lookup_lt_Some.
Qed.

Lemma cache_entry_kept_witness :
  run {| client := set_apiCache freshClient {[ uri uriA := apiA ]};
         tasks := [NotStarted uriA; NotStarted uriA]; resolveCalls := [uriA] |}
      [Call 1; Call 0]
  = Some {| client := set_apiCache freshClient {[ uri uriA := apiA ]};
            tasks := [Settled (Return apiA); Settled (Return apiA)];
            resolveCalls := [uriA] |}
  ∧ _apiCache (set_apiCache freshClient {[ uri uriA := apiA ]}) !! uri uriA = Some apiA
  ∧ attempts {| client := set_apiCache freshClient {[ uri uriA := apiA ]};
                tasks := [Settled (Return apiA); Settled (Return apiA)];
                resolveCalls := [uriA] |} (uri uriA) = 1.
Proof.
  assert (Hrun :
    run {| client := set_apiCache freshClient {[ uri uriA := apiA ]};
           tasks := [NotStarted uriA; NotStarted uriA]; resolveCalls := [uriA] |}
        [Call 1; Call 0]
    = Some {| client := set_apiCache freshClient {[ uri uriA := apiA ]};
              tasks := [Settled (Return apiA); Settled (Return apiA)];
              resolveCalls := [uriA] |}) by reflexivity.
  split; [exact Hrun|].
  destruct (cache_entry_kept _ _ _ (uri uriA) apiA Hrun) as (_ & _ & Hkept & _);
    [reflexivity|].
  destruct Hkept as (Hc & _ & Hat); [reflexivity|].
  split; [exact Hc | exact Hat].
Defined.

(** C7 (as stated) fails: two calls miss the cache together; the first
    resolution stores [apiA], which a third call gets from the cache; then the
    second resolution, in flight all along, stores [apiB] over it, and a
    fourth call gets [apiB]. *)
Lemma first_handle_replaced_counterexample :
  ∃ w,
    run (callers freshClient [uriA; uriA; uriA; uriA])
        [Call 0; Call 1; Resume 0 (Return (Some apiA)); Call 2;
         Resume 1 (Return (Some apiB)); Call 3] = Some w
    ∧ tasks w !! 0 = Some (Settled (Return apiA))
    ∧ tasks w !! 2 = Some (Settled (Return apiA))
    ∧ tasks w !! 3 = Some (Settled (Return apiB))
    ∧ _apiCache (client w) !! uri uriA = Some apiB
    ∧ apiA ≠ apiB.
Proof.
  eexists. split; [reflexivity|]. repeat (split; [reflexivity|]). discriminate.
Qed.

(** ** The invocation boundary *)

(** C3.  [invoke] never throws: it returns a result value for every
    request, whatever the resolution and the dispatch do.  A failed load
    (rejected or empty resolution) and a throwing dispatch both end as the
    [error] field of the returned value; otherwise the value of the handle's
    own [invoke] is returned. *)
Theorem invoke_never_throws (c : Web3ApiClient) (options : InvokeApiOptions)
    (resolved : Result (option Api)) (dispatch : Api → Result InvokeApiResult) :
  ∃ c' result,
    Web3ApiClient_invoke c options resolved dispatch = (c', Return result)
    ∧ c' = (loadWeb3Api c (opt_uri options) resolved).1
    ∧ match (loadWeb3Api c (opt_uri options) resolved).2 with
      | Throw e => result = {| data := None; error := Some e |}
      | Return api =>
          match dispatch api with
          | Throw e => result = {| data := None; error := Some e |}
          | Return r => result = r
          end
      end.
Proof.
  unfold Web3ApiClient_invoke.
  destruct (loadWeb3Api c (opt_uri options) resolved) as [c' [api|e]]; simpl.
  - destruct (dispatch api) as [r|e]; simpl; eauto.
  - eauto.
Qed.

(** An unresolvable Uri ends as an error value carrying the client's own
    message. *)
Example invoke_unresolved :
  (Web3ApiClient_invoke freshClient
     {| opt_uri := uriA; opt_method := "m"; opt_input := JNull; opt_decode := false |}
     (Return None) (λ _, Return {| data := Some (JNumber 42); error := None |})).2
  = Return {| data := None;
              error := Some (mkError
                "Unable to resolve Web3API at uri: w3://ens/api.simplestorage.eth") |}.
Proof. reflexivity. Qed.

(** ** Unique names *)

Lemma makeRepeatedUnique_reduce_unique_names names :
  ∀ counts acc seen,
    (∀ n, default 0 (counts !! n) = occurrences n seen) →
    makeRepeatedUnique_reduce names counts acc = acc ++ unique_names seen names.
Proof.
  induction names as [|name rest IH]; intros counts acc seen Hcounts; simpl.
  { by rewrite app_nil_r. }
  rewrite (IH _ _ (name :: seen)).
  - rewrite <- app_assoc. do 2 f_equal. simpl. rewrite Hcounts.
    destruct (occurrences name seen) as [|k]; simpl; [done|].
    replace (k + 1 - 0) with (S k) by lia.
    destruct (k + 1) eqn:Hk; [lia|]. simpl. done.
  - intros n. unfold occurrences. rewrite filter_cons.
    destruct (decide (name = n)) as [->|Hne].
    + rewrite lookup_insert_eq. simpl. rewrite Hcounts. unfold occurrences. lia.
    + rewrite lookup_insert_ne by done. apply Hcounts.
Qed.

(** The code follows the naming rule. *)
Lemma makeRepeatedUnique_unique_names names :
  makeRepeatedUnique names = unique_names [] names.
Proof.
  unfold makeRepeatedUnique.
  by rewrite (makeRepeatedUnique_reduce_unique_names names ∅ [] []).
Qed.

Lemma length_unique_names names : ∀ seen, length (unique_names seen names) = length names.
Proof. induction names as [|n ns IH]; intros seen; simpl; [done|]. by rewrite IH. Qed.

Lemma length_makeRepeatedUnique names :
  length (makeRepeatedUnique names) = length names.
Proof. rewrite makeRepeatedUnique_unique_names. apply length_unique_names. Qed.

(** *** When the keys are distinct *)

Lemma digits_only_pretty_N_go x :
  ∀ s, digits_only s = true → digits_only (pretty_N_go x s) = true.
Proof.
  induction (N.lt_wf_0 x) as [x _ IH]; intros s Hs.
  destruct (decide (x = 0)%N) as [->|Hx]; [by rewrite pretty_N_go_0|].
  rewrite pretty_N_go_step by lia. apply IH.
  - apply N.div_lt; lia.
  - simpl. rewrite Hs, andb_true_r. unfold pretty_N_char.
    by repeat case_match.
Qed.

Lemma digits_only_pretty (k : nat) : digits_only (pretty k) = true.
Proof.
  unfold pretty, pretty_nat, pretty, pretty_N. case_decide; [done|].
  by apply digits_only_pretty_N_go.
Qed.

Lemma digits_only_no_underscore s1 s2 :
  digits_only (s1 +:+ String "_"%char s2) = false.
Proof.
  induction s1 as [|c s1 IH]; simpl; [done|].
  rewrite IH. apply andb_false_r.
Qed.

(** The separator of a suffixed name is its last underscore. *)
Lemma suffix_split n :
  ∀ n' d d', digits_only d = true → digits_only d' = true →
    n +:+ "_" +:+ d = n' +:+ "_" +:+ d' → n = n' ∧ d = d'.
Proof.
  induction n as [|c n IH]; intros [|c' n'] d d' Hd Hd' Heq;
    cbv [String.append] in Heq; fold String.append in Heq.
  - by injection Heq as ->.
  - injection Heq as _ ->. by rewrite digits_only_no_underscore in Hd.
  - injection Heq as _ <-. by rewrite digits_only_no_underscore in Hd'.
  - injection Heq as -> Heq. by destruct (IH n' d d' Hd Hd' Heq) as [-> ->].
Qed.

Lemma suffixed_inj names n k n' k' :
  unsuffixed names → n ∈ names → n' ∈ names →
  suffixed n k = suffixed n' k' → n = n' ∧ k = k'.
Proof.
  intros Hun Hn Hn' Heq. destruct k as [|k], k' as [|k']; simpl in Heq.
  - done.
  - by destruct (Hun n n' k').
  - by destruct (Hun n' n k).
  - apply suffix_split in Heq as [-> Hk]; [|apply digits_only_pretty..].
    split; [done|]. by apply (inj pretty).
Qed.

Lemma unique_names_elem names :
  ∀ seen x, x ∈ unique_names seen names →
    ∃ n k, x = suffixed n k ∧ n ∈ names ∧ occurrences n seen ≤ k.
Proof.
  induction names as [|name rest IH]; intros seen x Hx; simpl in Hx.
  { by inversion Hx. }
  apply elem_of_cons in Hx as [->|Hx].
  - exists name, (occurrences name seen). split; [done|]. split; [by left|done].
  - apply IH in Hx as (n & k & -> & Hn & Hk). exists n, k.
    split; [done|]. split; [by right|].
    etrans; [|exact Hk]. unfold occurrences. rewrite filter_cons.
    case_decide; simpl; lia.
Qed.

Lemma unique_names_NoDup universe names :
  unsuffixed universe → names ⊆ universe →
  ∀ seen, NoDup (unique_names seen names).
Proof.
  intros Hun. induction names as [|name rest IH]; intros Hsub seen; simpl.
  { constructor. }
  constructor.
  - intros Hin. apply unique_names_elem in Hin as (n & k & Heq & Hn & Hk).
    apply (suffixed_inj universe) in Heq as [<- <-]; [|done|..].
    + unfold occurrences in Hk. rewrite filter_cons_True in Hk by done.
      simpl in Hk. lia.
    + apply Hsub. by left.
    + apply Hsub. by right.
  - apply IH. intros n Hn. apply Hsub. by right.
Qed.

(** The keys are pairwise distinct when no operation name has the form of
    a suffixed name of the query. *)
Lemma makeRepeatedUnique_NoDup names :
  unsuffixed names → NoDup (makeRepeatedUnique names).
Proof.
  intros Hun. rewrite makeRepeatedUnique_unique_names.
  by apply (unique_names_NoDup names).
Qed.

(** The example of the specification. *)
Example makeRepeatedUnique_a_b_a :
  makeRepeatedUnique ["a"; "b"; "a"] = ["a"; "b"; "a_1"].
Proof. reflexivity. Qed.

(** C4: the keys collide on the operations [a, a, a_1].  The second [a]
    becomes [a_1], which is also the name of the third operation; the three
    operations succeed, yet the data mapping has two keys and the value of
    the second operation is overwritten by that of the third. *)
Theorem makeRepeatedUnique_collision :
  makeRepeatedUnique ["a"; "a"; "a_1"] = ["a"; "a_1"; "a_1"]
  ∧ ∃ d,
      q_data (query_aggregate [ ("a", succeeded (JNumber 1));
                                ("a", succeeded (JNumber 2));
                                ("a_1", succeeded (JNumber 3)) ]) = Some d
      ∧ js_get d "a" = Some (JNumber 1)
      ∧ js_get d "a_1" = Some (JNumber 3)
      ∧ size d = 2
      ∧ q_errors (query_aggregate [ ("a", succeeded (JNumber 1));
                                    ("a", succeeded (JNumber 2));
                                    ("a_1", succeeded (JNumber 3)) ]) = None.
Proof.
  split; [reflexivity|]. eexists. split; [reflexivity|].
  repeat split; reflexivity.
Qed.

(** ** Aggregation *)

Lemma build_data_other key methods :
  ∀ resultDatas d, key ∉ methods →
    build_data methods resultDatas d !! key = d !! key.
Proof.
  induction methods as [|m ms IH]; intros [|v vs] d Hnot; simpl; try done.
  rewrite IH by (by apply not_elem_of_cons in Hnot as [_ ?]).
  apply lookup_insert_ne. apply not_elem_of_cons in Hnot as [? _]. done.
Qed.

(** The value stored under a key is that of the last operation with the
    key. *)
Lemma build_data_last methods :
  ∀ resultDatas d i key v,
    methods !! i = Some key → resultDatas !! i = Some v →
    (∀ j, i < j → methods !! j ≠ Some key) →
    build_data methods resultDatas d !! key = Some v.
Proof.
  induction methods as [|m ms IH]; intros [|v0 vs] d i key v Hm Hv Hlast;
    try done.
  destruct i as [|i]; simpl in *.
  - injection Hm as ->. injection Hv as ->.
    rewrite build_data_other; [apply lookup_insert_eq|].
    intros Hin. apply list_elem_of_lookup in Hin as [j Hj].
    apply (Hlast (S j)); [lia|done].
  - eapply IH; [done..|]. intros j Hj. apply (Hlast (S j)). lia.
Qed.

Lemma omap_nil_Forall {A B} (f : A → option B) (l : list A) :
  omap f l = [] ↔ Forall (λ x, f x = None) l.
Proof.
  induction l as [|x l IH]; simpl; [by split|].
  destruct (f x) eqn:Hx.
  - split; [done|]. intros H. apply Forall_cons in H as [? _]. congruence.
  - rewrite IH. split.
    + intros H. by constructor.
    + intros H. by apply Forall_cons in H as [_ ?].
Qed.

Lemma append_longer (s t : string) : t ≠ "" → s ≠ s +:+ t.
Proof.
  intros Ht Heq. apply Ht. clear Ht.
  induction s as [|a s IH]; simpl in Heq; [done|].
  injection Heq as Heq. by apply IH.
Qed.

(** The keys of a query of two operations never collide, and the first
    operation keeps its name. *)
Lemma result_keys_two m1 m2 r1 r2 :
  ∃ k2, result_keys [(m1, r1); (m2, r2)] = [m1; k2] ∧ m1 ≠ k2.
Proof.
  unfold result_keys. rewrite makeRepeatedUnique_unique_names. simpl.
  unfold occurrences. rewrite filter_cons, filter_nil.
  destruct (decide (m1 = m2)) as [->|Hne]; simpl.
  - eexists. split; [done|]. by apply append_longer.
  - by eexists.
Qed.

(** Where the keys do not collide, failures are isolated per operation.
    For operation names that are not members of [Object.prototype]: the
    [errors] field is omitted exactly when no invocation has an error, and
    otherwise lists the errors in operation order; the data mapping holds,
    under the key of an operation that no later operation takes, that
    operation's own [data]; and for two operations of which the first
    succeeds with [V] and the second fails with [E], reading the data gives
    [V] under the first name and [undefined] everywhere else, with [errors]
    being [[E]]. *)
Lemma query_isolated_without_collision
    (invocations : list (string * InvokeApiResult))
    (i : nat) (key : string) (inv : string * InvokeApiResult)
    (Hplain : plain_names (invocations.*1))
    (Hkey : result_keys invocations !! i = Some key)
    (Hinv : invocations !! i = Some inv)
    (Hlast : ∀ j, i < j → result_keys invocations !! j ≠ Some key) :
  (∃ d, q_data (query_aggregate invocations) = Some d
        ∧ d !! key = Some (data inv.2)
        ∧ js_get d key = data inv.2)
  ∧ (q_errors (query_aggregate invocations) = None
     ↔ Forall (λ inv, error inv.2 = None) invocations)
  ∧ (∀ errs, q_errors (query_aggregate invocations) = Some errs →
       errs = omap (λ inv, error inv.2) invocations)
  ∧ (∀ m1 m2 V E,
       plain_names [m1; m2] →
       ∃ d, q_data (query_aggregate [(m1, succeeded V); (m2, failed E)]) = Some d
            ∧ (∀ k, k ∉ object_prototype_members →
                 js_get d k = if decide (k = m1) then Some V else None)
            ∧ q_errors (query_aggregate [(m1, succeeded V); (m2, failed E)])
              = Some [E]).
Proof.
  split; [|split; [|split]].
  - eexists. split; [reflexivity|].
    assert (Hd : build_data (makeRepeatedUnique invocations.*1)
                   ((data ∘ snd) <$> invocations) ∅ !! key = Some (data inv.2)).
    { eapply build_data_last; [exact Hkey| |exact Hlast].
      rewrite list_lookup_fmap, Hinv. done. }
    split; [exact Hd|]. unfold js_get. by rewrite Hd.
  - unfold query_aggregate. cbn [q_errors]. case_bool_decide as Hlen.
    + split; [intros _|done].
      apply omap_nil_Forall. by apply nil_length_inv.
    + split; [done|]. intros Hall. exfalso. apply Hlen.
      apply (omap_nil_Forall (error ∘ snd)) in Hall. by rewrite Hall.
  - unfold query_aggregate. cbn [q_errors]. intros errs.
    case_bool_decide; [done|]. by intros [= <-].
  - intros m1 m2 V E _.
    destruct (result_keys_two m1 m2 (succeeded V) (failed E)) as (k2 & Hk & Hne).
    unfold result_keys in Hk. cbn [fmap list_fmap fst] in Hk.
    eexists. split; [reflexivity|]. cbn [fmap list_fmap fst snd compose].
    rewrite Hk. split; [|done].
    intros k _. unfold js_get. simpl.
    destruct (decide (k = m1)) as [->|Hk1].
    + by rewrite lookup_insert_ne, lookup_insert_eq.
    + destruct (decide (k = k2)) as [->|Hk2].
      * by rewrite lookup_insert_eq.
      * by rewrite !lookup_insert_ne, lookup_empty.
Qed.

(** C5: a failure reaches a sibling through a key collision.  In a query
    with the operations [a], [a_1], [a], of which the first two succeed with
    [1] and [2] and the third fails with [E], the failing [a] gets the key
    [a_1]; its [undefined] data is stored over the value [2] of the sibling
    [a_1], which succeeded. *)
Theorem query_failure_overwrites_sibling :
  result_keys [ ("a", succeeded (JNumber 1));
                ("a_1", succeeded (JNumber 2));
                ("a", failed (mkError "E")) ] = ["a"; "a_1"; "a_1"]
  ∧ ∃ d,
      q_data (query_aggregate [ ("a", succeeded (JNumber 1));
                                ("a_1", succeeded (JNumber 2));
                                ("a", failed (mkError "E")) ]) = Some d
      ∧ js_get d "a" = Some (JNumber 1)
      ∧ d !! "a_1" = Some None
      ∧ js_get d "a_1" = None
      ∧ size d = 2
      ∧ q_errors (query_aggregate [ ("a", succeeded (JNumber 1));
                                    ("a_1", succeeded (JNumber 2));
                                    ("a", failed (mkError "E")) ])
        = Some [mkError "E"].
Proof.
  split; [reflexivity|]. eexists. split; [reflexivity|].
  repeat split; reflexivity.
Qed.

(** ** Alias cycles *)

Section ResolveUriFacts.

Variable newUri : string → Result Uri.
Variable table : list UriRedirect.
Variable uriResolverInterface : Uri.
Variable invokeResolver : ApiHandle → Uri → ResolverAnswer.
Variable fetchBytes : ApiHandle → Uri → option string.

Lemma resolveUri_repeat fuel visited target :
  target ∈ visited →
  resolveUri newUri table uriResolverInterface invokeResolver fetchBytes
    (S fuel) visited target = Some (inl ResolutionCycle).
Proof. intros Hin. simpl. by rewrite bool_decide_eq_true_2. Qed.

Lemma resolveUri_alias fuel visited target next :
  target ∉ visited → alias_of newUri table target = Some next →
  resolveUri newUri table uriResolverInterface invokeResolver fetchBytes
    (S fuel) visited target
  = resolveUri newUri table uriResolverInterface invokeResolver fetchBytes
      fuel (target :: visited) next.
Proof.
  intros Hnot Halias. simpl. rewrite bool_decide_eq_false_2 by done.
  unfold alias_of in Halias.
  destruct (directMatch newUri table target) as [r|]; [|done].
  destruct (to r) as [text|pkg]; [|done]. by rewrite Halias.
Qed.

(** A walk along aliases that comes back to a Uri of the call chain is
    stopped there. *)
Lemma alias_path_repeat n :
  ∀ u visited target fuel,
    alias_path newUri table n u = Some target → target ∈ visited → n < fuel →
    resolveUri newUri table uriResolverInterface invokeResolver fetchBytes
      fuel visited u = Some (inl ResolutionCycle).
Proof.
  induction n as [|n IH]; intros u visited target fuel Hpath Hin Hfuel;
    (destruct fuel as [|fuel]; [lia|]).
  - injection Hpath as ->. by apply resolveUri_repeat.
  - destruct (decide (u ∈ visited)) as [Hu|Hu]; [by apply resolveUri_repeat|].
    simpl in Hpath.
    destruct (alias_of newUri table u) as [next|] eqn:Halias; [|done].
    rewrite (resolveUri_alias _ _ _ next) by done.
    apply (IH next _ target); [done| |lia]. by right.
Qed.

(** A walk along aliases that reaches a Uri lying on an alias cycle is
    stopped, at the latest when the cycle closes. *)
Lemma alias_walk_into_cycle n a i :
  ∀ x visited fuel,
    alias_path newUri table i x = Some a →
    alias_path newUri table (S n) a = Some a →
    i + S n < fuel →
    resolveUri newUri table uriResolverInterface invokeResolver fetchBytes
      fuel visited x = Some (inl ResolutionCycle).
Proof.
  induction i as [|i IH]; intros x visited fuel Hreach Hcycle Hfuel;
    (destruct fuel as [|fuel]; [lia|]);
    (destruct (decide (x ∈ visited)) as [Hx|Hx]; [by apply resolveUri_repeat|]).
  - injection Hreach as ->. simpl in Hcycle.
    destruct (alias_of newUri table a) as [next|] eqn:Halias; [|done].
    rewrite (resolveUri_alias _ _ _ next) by done.
    apply (alias_path_repeat n next _ a); [done|by left|lia].
  - simpl in Hreach.
    destruct (alias_of newUri table x) as [next|] eqn:Halias; [|done].
    rewrite (resolveUri_alias _ _ _ next) by done.
    apply IH; [done..|lia].
Qed.

End ResolveUriFacts.

(** C8.  Resolution tracks the Uris of the current call chain and fails
    on a repeat.  If following the aliases of the table from [x], first match
    first, reaches after [i] hops a Uri [a] from which [n + 1] further hops
    lead back to [a] (so [x] itself for [i = 0], as when [A] aliases to [B]
    and [B] to [A]), then resolution of [x] ends, with any fuel above
    [i + n + 1], in the failure [ResolutionCycle]; and resolution of any Uri
    that is already in the chain fails with [ResolutionCycle] at once. *)
Theorem alias_cycle_fails
    (newUri : string → Result Uri) (table : list UriRedirect)
    (uriResolverInterface : Uri)
    (invokeResolver : ApiHandle → Uri → ResolverAnswer)
    (fetchBytes : ApiHandle → Uri → option string)
    (i n : nat) (x a : Uri) (fuel : nat)
    (Hreach : alias_path newUri table i x = Some a)
    (Hcycle : alias_path newUri table (S n) a = Some a)
    (Hfuel : i + S n < fuel) :
  resolveUri newUri table uriResolverInterface invokeResolver fetchBytes fuel [] x
  = Some (inl ResolutionCycle)
  ∧ ∀ chain target fuel',
      target ∈ chain →
      resolveUri newUri table uriResolverInterface invokeResolver fetchBytes
        (S fuel') chain target = Some (inl ResolutionCycle).
Proof.
  split.
  - by apply (alias_walk_into_cycle _ _ _ _ _ n a i).
  - intros chain target fuel' Hin. by apply resolveUri_repeat.
Qed.

(** [A] aliases to [B] and [B] to [A]: resolution of [A] fails with
    [ResolutionCycle]; so does resolution of [x] when [x] aliases to [A]. *)
Lemma alias_cycle_fails_witness :
  resolveUri Uri_of_canonical cyclicTable (mkUri "w3://ens/uri-resolver.core.web3api.eth")
    (λ _ _, NotFound) (λ _ _, None) 3 [] (mkUri "w3://a/a")
  = Some (inl ResolutionCycle)
  ∧ resolveUri Uri_of_canonical cycleBehindAlias
      (mkUri "w3://ens/uri-resolver.core.web3api.eth")
      (λ _ _, NotFound) (λ _ _, None) 4 [] (mkUri "w3://x/x")
    = Some (inl ResolutionCycle).
Proof.
  split.
  - refine (proj1 (alias_cycle_fails Uri_of_canonical cyclicTable _ _ _
                     0 1 (mkUri "w3://a/a") (mkUri "w3://a/a") 3 _ _ _));
      [reflexivity | reflexivity | lia].
  - refine (proj1 (alias_cycle_fails Uri_of_canonical cycleBehindAlias _ _ _
                     1 1 (mkUri "w3://x/x") (mkUri "w3://a/a") 4 _ _ _));
      [reflexivity | reflexivity | lia].
Defined.

(** * Further properties *)

(** ** The implementation index on any table *)

Section GetImplementationsMore.

Variable newUri : string → Result Uri.

Lemma getImplementations_loop_acc abstractApi redirects :
  ∀ result,
    getImplementations_loop newUri abstractApi redirects result
    = found ← getImplementations_loop newUri abstractApi redirects [];
      Return (result ++ found).
Proof.
  induction redirects as [|r rs IH]; intros result; simpl.
  { by rewrite app_nil_r. }
  destruct (to r) as [target|pkg].
  - destruct (newUri (from r)) as [fromUri|e]; simpl; [|done].
    destruct (Uri_equals fromUri abstractApi); [|apply IH].
    destruct (newUri target) as [t|e]; simpl; [|done].
    rewrite (IH (result ++ [t])), (IH [t]).
    destruct (getImplementations_loop newUri abstractApi rs []); simpl; [|done].
    by rewrite <- app_assoc.
  - destruct (-1 <? _)%Z; [|apply IH].
    destruct (newUri (from r)) as [u|e]; simpl; [|done].
    rewrite (IH (result ++ [u])), (IH [u]).
    destruct (getImplementations_loop newUri abstractApi rs []); simpl; [|done].
    by rewrite <- app_assoc.
Qed.

Lemma getImplementations_loop_app abstractApi l1 l2 :
  ∀ result,
    getImplementations_loop newUri abstractApi (l1 ++ l2) result
    = found ← getImplementations_loop newUri abstractApi l1 result;
      getImplementations_loop newUri abstractApi l2 found.
Proof.
  induction l1 as [|r rs IH]; intros result; simpl; [done|].
  destruct (to r) as [target|pkg].
  - destruct (newUri (from r)) as [fromUri|e]; simpl; [|done].
    destruct (Uri_equals fromUri abstractApi); [|apply IH].
    destruct (newUri target) as [t|e]; simpl; [apply IH|done].
  - destruct (-1 <? _)%Z; [|apply IH].
    destruct (newUri (from r)) as [u|e]; simpl; [apply IH|done].
Qed.

Lemma getImplementations_loop_parses abstractApi redirects :
  Forall (entry_parses newUri abstractApi) redirects →
  ∀ result,
    getImplementations_loop newUri abstractApi redirects result
    = Return (result ++ omap (contribution newUri abstractApi) redirects).
Proof.
  induction 1 as [|r rs Hr _ IH]; intros result; simpl.
  { by rewrite app_nil_r. }
  unfold contribution at 1. unfold entry_parses in Hr.
  destruct (to r) as [target | pkg].
  - destruct Hr as [[f Hf] Hto]. rewrite Hf.
    apply parsed_Some in Hf as Hf'. rewrite Hf'. simpl.
    rewrite Uri_equals_decide.
    rewrite (bool_decide_ext (Some f = Some abstractApi) (f = abstractApi))
      by (split; congruence).
    case_bool_decide as Heq.
    + destruct Hto as [t Ht]; [by rewrite Hf, Heq|].
      rewrite Ht. apply parsed_Some in Ht as ->. simpl.
      by rewrite IH, <- app_assoc.
    + apply IH.
  - rewrite implementedApi_decide. case_bool_decide as Himpl.
    + destruct (Hr Himpl) as [f Hf]. rewrite Hf.
      apply parsed_Some in Hf as ->. simpl.
      by rewrite IH, <- app_assoc.
    + apply IH.
Qed.

Lemma getImplementations_loop_returns abstractApi redirects :
  ∀ result found,
    getImplementations_loop newUri abstractApi redirects result = Return found →
    Forall (entry_parses newUri abstractApi) redirects.
Proof.
  induction redirects as [|r rs IH]; intros result found Hret; [constructor|].
  simpl in Hret. constructor.
  - unfold entry_parses, parsed. destruct (to r) as [target|pkg].
    + destruct (newUri (from r)) as [fromUri|e]; simpl in *; [|done].
      split; [by eexists|]. intros [= ->].
      rewrite (proj2 (Uri_equals_true abstractApi abstractApi) eq_refl) in Hret.
      destruct (newUri target); [by eexists|done].
    + intros Himpl. rewrite implementedApi_decide in Hret.
      rewrite bool_decide_eq_true_2 in Hret by done.
      destruct (newUri (from r)); [by eexists|done].
  - destruct (to r) as [target|pkg].
    + destruct (newUri (from r)) as [fromUri|e]; simpl in *; [|done].
      destruct (Uri_equals fromUri abstractApi); [|by eapply IH].
      destruct (newUri target); simpl in *; [by eapply IH|done].
    + destruct (-1 <? _)%Z; [|by eapply IH].
      destruct (newUri (from r)); simpl in *; [by eapply IH|done].
Qed.

End GetImplementationsMore.

(** X1.  The implementations found in a concatenated table are those of
    the first part followed by those of the second; the call throws when
    either part makes it throw. *)
Theorem getImplementations_app (newUri : string → Result Uri)
    (abstractApi : Uri) (l1 l2 : list UriRedirect) :
  getImplementations newUri abstractApi (l1 ++ l2)
  = found1 ← getImplementations newUri abstractApi l1;
    found2 ← getImplementations newUri abstractApi l2;
    Return (found1 ++ found2).
Proof.
  unfold getImplementations. rewrite getImplementations_loop_app.
  destruct (getImplementations_loop newUri abstractApi l1 []) as [found1|e];
    simpl; [|done].
  apply getImplementations_loop_acc.
Qed.

(** X2.  [getImplementations] returns exactly when every text its loop
    hands to the Uri constructor is accepted, and what it returns is then the
    contributions of the entries in table order. *)
Theorem getImplementations_returns_iff (newUri : string → Result Uri)
    (abstractApi : Uri) (redirects : list UriRedirect) :
  (is_Return (getImplementations newUri abstractApi redirects)
   ↔ Forall (entry_parses newUri abstractApi) redirects)
  ∧ ∀ found, getImplementations newUri abstractApi redirects = Return found →
      found = omap (contribution newUri abstractApi) redirects.
Proof.
  unfold getImplementations. split; [split|].
  - intros [found Hret]. by eapply getImplementations_loop_returns.
  - intros Hall. eexists. by apply getImplementations_loop_parses.
  - intros found Hret.
    pose proof (getImplementations_loop_returns _ _ _ _ _ Hret) as Hall.
    rewrite (getImplementations_loop_parses _ _ _ Hall) in Hret.
    by injection Hret as <-.
Qed.

Lemma getImplementations_returns_iff_witness :
  [mkUri "w3://one/1"]
  = omap (contribution Uri_of_canonical abstractInterface) aliasOnly.
Proof.
  apply (proj2 (getImplementations_returns_iff Uri_of_canonical
                  abstractInterface aliasOnly)).
  reflexivity.
Defined.

(** X3.  One alias whose [from] the Uri constructor rejects makes every
    query of the table throw, whatever interface is asked for. *)
Theorem getImplementations_malformed_alias (newUri : string → Result Uri)
    (abstractApi : Uri) (redirects : list UriRedirect)
    (r : UriRedirect) (target : string)
    (Hin : r ∈ redirects)
    (Halias : to r = ToUri target)
    (Hbad : parsed newUri (from r) = None) :
  ∃ e, getImplementations newUri abstractApi redirects = Throw e.
Proof.
  destruct (getImplementations newUri abstractApi redirects) as [found|e] eqn:Hret;
    [|by eexists].
  apply getImplementations_loop_returns in Hret.
  rewrite Forall_forall in Hret. specialize (Hret r Hin).
  unfold entry_parses in Hret. rewrite Halias, Hbad in Hret.
  by destruct Hret as [[? ?] _].
Qed.

Lemma getImplementations_malformed_alias_witness :
  ∃ e, getImplementations Uri_reject_empty abstractInterface
         [ {| from := "w3://something/else";
              to := ToPlugin (pluginImplementing [abstractInterface] []) |};
           {| from := ""; to := ToUri "w3://other/other" |} ] = Throw e.
Proof.
  apply (getImplementations_malformed_alias Uri_reject_empty abstractInterface _
           {| from := ""; to := ToUri "w3://other/other" |} "w3://other/other").
  - right. left.
  - reflexivity.
  - reflexivity.
Defined.

(** X4.  A plugin binding that does not implement the abstract Uri is
    skipped without its [from] being looked at: replacing that text, by a
    malformed one too, changes nothing. *)
Theorem getImplementations_skips_other_plugins (newUri : string → Result Uri)
    (abstractApi : Uri) (l1 l2 : list UriRedirect)
    (pkg : PluginPackage) (text1 text2 : string)
    (Hother : abstractApi ∉ implemented (manifest pkg)) :
  getImplementations newUri abstractApi
    (l1 ++ {| from := text1; to := ToPlugin pkg |} :: l2)
  = getImplementations newUri abstractApi
      (l1 ++ {| from := text2; to := ToPlugin pkg |} :: l2).
Proof.
  unfold getImplementations. rewrite !getImplementations_loop_app.
  destruct (getImplementations_loop newUri abstractApi l1 []); simpl; [|done].
  by rewrite implementedApi_decide, bool_decide_eq_false_2.
Qed.

Lemma getImplementations_skips_other_plugins_witness :
  getImplementations Uri_reject_empty abstractInterface
    ([] ++ {| from := "w3://some-other/other1";
              to := ToPlugin (pluginImplementing [] []) |} :: aliasOnly)
  = getImplementations Uri_reject_empty abstractInterface
      ([] ++ {| from := ""; to := ToPlugin (pluginImplementing [] []) |} :: aliasOnly).
Proof.
  apply (getImplementations_skips_other_plugins Uri_reject_empty abstractInterface
           [] aliasOnly (pluginImplementing [] []) "w3://some-other/other1" "").
  simpl. apply not_elem_of_nil.
Defined.

(** ** The constructor and the rest of the store *)

Lemma fresh_ref_lookup {V} (m : gmap ref V) : m !! fresh_ref m = None.
Proof. apply not_elem_of_dom. unfold fresh_ref. apply is_fresh. Qed.

(** X5.  Constructing a client from a config changes nothing but the
    array of that config: the config objects and all other arrays are as
    before, and so is the redirect list of every client whose config refers
    to another array. *)
Theorem constructor_frame
    (getDefaultRedirects : unit → list UriRedirect)
    (s : Store) (config : ref) (cfg : ClientConfig) (user : list UriRedirect)
    (showLogging : bool)
    (Hcfg : configs s !! config = Some cfg)
    (Harr : arrays s !! redirects cfg = Some user) :
  ∃ s' c,
    Web3ApiClient_new getDefaultRedirects s (Some config) showLogging = Some (s', c)
    ∧ configs s' = configs s
    ∧ (∀ a, a ≠ redirects cfg → arrays s' !! a = arrays s !! a)
    ∧ (∀ c0 cfg0, configs s !! _config c0 = Some cfg0 →
         redirects cfg0 ≠ redirects cfg →
         Web3ApiClient_redirects s' c0 = Web3ApiClient_redirects s c0).
Proof.
  do 2 eexists. split; [by apply Web3ApiClient_new_config|]. simpl.
  split; [done|]. split.
  - intros a Ha. by rewrite lookup_insert_ne.
  - intros c0 cfg0 Hc0 Hne. unfold Web3ApiClient_redirects. simpl.
    rewrite Hc0. simpl. by rewrite lookup_insert_ne.
Qed.

Lemma constructor_frame_witness :
  ∃ s' c,
    Web3ApiClient_new exampleDefaults exampleStore (Some 0) true = Some (s', c)
    ∧ configs s' = configs exampleStore
    ∧ arrays s' !! 8 = arrays exampleStore !! 8.
Proof.
  destruct (constructor_frame exampleDefaults exampleStore 0 {| redirects := 7 |}
              [ {| from := "w3://ens/ipfs.web3api.eth"; to := ToUri "w3://one/1" |} ]
              true eq_refl eq_refl) as (s' & c & Hnew & Hcfgs & Harrs & _).
  exists s', c. split; [exact Hnew|]. split; [exact Hcfgs|].
  apply Harrs. simpl. lia.
Defined.

(** X6.  A client constructed without a config gets a config object and
    an array of its own: its redirect list is exactly the defaults, and the
    redirect lists of all existing clients and configs are as before.  The
    defaults thus accumulate (C10) only in a config that is passed in. *)
Theorem constructor_default_config_isolated
    (getDefaultRedirects : unit → list UriRedirect)
    (s : Store) (showLogging : bool) :
  ∃ s' c,
    Web3ApiClient_new getDefaultRedirects s None showLogging = Some (s', c)
    ∧ Web3ApiClient_redirects s' c = Some (getDefaultRedirects ())
    ∧ configs s !! _config c = None
    ∧ (∀ c0 l, Web3ApiClient_redirects s c0 = Some l →
         Web3ApiClient_redirects s' c0 = Some l)
    ∧ (∀ config0 l, config_redirects s config0 = Some l →
         config_redirects s' config0 = Some l).
Proof.
  assert (Hframe : ∀ config0 l,
    config_redirects s config0 = Some l →
    config_redirects
      {| configs := <[fresh_ref (configs s) := {| redirects := fresh_ref (arrays s) |}]>
                      (configs s);
         arrays := <[fresh_ref (arrays s) := [] ++ getDefaultRedirects ()]>
                     (<[fresh_ref (arrays s) := []]> (arrays s)) |} config0 = Some l).
  { intros config0 l. unfold config_redirects. simpl.
    destruct (configs s !! config0) as [cfg0|] eqn:Hc0; [|done]. simpl.
    intros Hl.
    assert (config0 ≠ fresh_ref (configs s)).
    { intros ->. by rewrite fresh_ref_lookup in Hc0. }
    assert (redirects cfg0 ≠ fresh_ref (arrays s)).
    { intros Heq. by rewrite Heq, fresh_ref_lookup in Hl. }
    rewrite lookup_insert_ne by done. rewrite Hc0. simpl.
    by rewrite !lookup_insert_ne. }
  unfold Web3ApiClient_new. simpl.
  rewrite lookup_insert_eq. simpl. rewrite lookup_insert_eq. simpl.
  do 2 eexists. split; [reflexivity|].
  split; [|split; [|split]].
  - unfold Web3ApiClient_redirects. simpl.
    rewrite lookup_insert_eq. simpl. by rewrite lookup_insert_eq.
  - simpl. apply fresh_ref_lookup.
  - intros c0 l. apply (Hframe (_config c0) l).
  - exact Hframe.
Qed.

Lemma constructor_default_config_isolated_witness :
  ∃ s' c,
    Web3ApiClient_new exampleDefaults exampleStore None false = Some (s', c)
    ∧ config_redirects s' 0
      = Some [ {| from := "w3://ens/ipfs.web3api.eth"; to := ToUri "w3://one/1" |} ].
Proof.
  destruct (constructor_default_config_isolated exampleDefaults exampleStore false)
    as (s' & c & Hnew & _ & _ & _ & Hconfigs).
  exists s', c. split; [exact Hnew|]. apply Hconfigs. reflexivity.
Defined.

(** ** More on the Api cache *)

Lemma task_key_lookup (ts : list Task) i t key :
  Forall (λ t, task_key t ≠ Some key) ts → ts !! i = Some t →
  task_key t ≠ Some key.
Proof.
  intros Hall Hi.
  exact (Forall_lookup_1 (λ t, task_key t ≠ Some key) ts i t Hall Hi).
Qed.

(** X7.  Calls for other Uris never touch the entry of a key: along any
    run in which no call is for the key, its cache entry (present or absent)
    stays as it was and no resolution is started for it. *)
Theorem other_keys_undisturbed (w w' : World) (evs : list Event) (key : string)
    (Hrun : run w evs = Some w')
    (Hother : Forall (λ t, task_key t ≠ Some key) (tasks w)) :
  _apiCache (client w') !! key = _apiCache (client w) !! key
  ∧ attempts w' key = attempts w key.
Proof.
  cut (Forall (λ t, task_key t ≠ Some key) (tasks w')
       ∧ _apiCache (client w') !! key = _apiCache (client w) !! key
       ∧ attempts w' key = attempts w key); [tauto|].
  apply (run_invariant
           (λ w1, Forall (λ t, task_key t ≠ Some key) (tasks w1)
                  ∧ _apiCache (client w1) !! key = _apiCache (client w) !! key
                  ∧ attempts w1 key = attempts w key)) with evs w;
    [|done|exact Hrun].
  clear. intros w1 ev w2 (Hall & Hc & Hat) Hstep.
  destruct ev as [i | i resolved]; simpl in Hstep.
  - destruct (tasks w1 !! i) as [[u| |]|] eqn:Hi; try done.
    pose proof (task_key_lookup _ _ _ _ Hall Hi) as Hne. simpl in Hne.
    unfold loadWeb3Api_enter in Hstep.
    destruct (_apiCache (client w1) !! uri u); injection Hstep as <-; simpl.
    + split; [by apply Forall_insert|done].
    + split; [by apply Forall_insert|]. split; [done|].
      unfold attempts in *. simpl. rewrite filter_cons_False; [done|congruence].
  - destruct (tasks w1 !! i) as [[|u|]|] eqn:Hi; try done.
    pose proof (task_key_lookup _ _ _ _ Hall Hi) as Hne. simpl in Hne.
    destruct resolved as [[api|]|e]; simpl in Hstep; injection Hstep as <-; simpl;
      (split; [by apply Forall_insert|]); [|done..].
    split; [|done]. rewrite lookup_insert_ne; [done|congruence].
Qed.

Lemma other_keys_undisturbed_witness :
  ∃ w',
    run (callers freshClient [uriA; uriA]) [Call 0; Resume 0 (Return (Some apiA)); Call 1]
    = Some w'
    ∧ _apiCache (client w') !! "w3://ens/ipfs.web3api.eth" = None
    ∧ attempts w' "w3://ens/ipfs.web3api.eth" = 0.
Proof.
  assert (Hrun :
    run (callers freshClient [uriA; uriA]) [Call 0; Resume 0 (Return (Some apiA)); Call 1]
    = Some {| client := set_apiCache freshClient {[ uri uriA := apiA ]};
              tasks := [Settled (Return apiA); Settled (Return apiA)];
              resolveCalls := [uriA] |}) by reflexivity.
  eexists. split; [exact Hrun|].
  apply (other_keys_undisturbed _ _ _ "w3://ens/ipfs.web3api.eth" Hrun).
  repeat constructor; discriminate.
Defined.

Lemma delivered_for_mono (ts ts' : list Task) key evs :
  (∀ j, (ts' !! j) ≫= task_key = Some key → (ts !! j) ≫= task_key = Some key) →
  delivered_for ts' key evs ⊆ delivered_for ts key evs.
Proof.
  intros Hmono. induction evs as [|[i | i [[api|]|e]] evs IH]; simpl; try done.
  case_bool_decide as H'.
  - rewrite bool_decide_eq_true_2 by auto. by apply list_subseteq_skip.
  - case_bool_decide; [by apply list_subseteq_cons|done].
Qed.

Lemma task_key_insert_mono (ts : list Task) i t t' key :
  ts !! i = Some t → (task_key t' = Some key → task_key t = Some key) →
  ∀ j, (<[i := t']> ts !! j) ≫= task_key = Some key →
       (ts !! j) ≫= task_key = Some key.
Proof.
  intros Hi Hkey j. destruct (decide (i = j)) as [<-|Hne].
  - rewrite list_lookup_insert_eq by (by eapply lookup_lt_Some).
    rewrite Hi. simpl. apply Hkey.
  - by rewrite list_lookup_insert_ne.
Qed.

(** X8.  The cache holds no handle of unknown origin: an entry found
    after a run was either there before, or is a handle that [resolveUri]
    delivered, during the run, to a call for that very key. *)
Theorem cache_provenance (evs : list Event) :
  ∀ (w w' : World) (key : string) (api : Api),
    run w evs = Some w' →
    _apiCache (client w') !! key = Some api →
    _apiCache (client w) !! key = Some api
    ∨ api ∈ delivered_for (tasks w) key evs.
Proof.
  induction evs as [|ev evs IH]; intros w w' key api Hrun Hapi; simpl in Hrun.
  { injection Hrun as <-. by left. }
  destruct (step w ev) as [w1|] eqn:Hstep; [|done].
  destruct (IH w1 w' key api Hrun Hapi) as [Hc1 | Hin]; clear IH.
  - destruct ev as [i | i resolved]; simpl in Hstep.
    + destruct (tasks w !! i) as [[u| |]|]; try done.
      destruct (loadWeb3Api_enter (client w) u); injection Hstep as <-; by left.
    + destruct (tasks w !! i) as [[|u|]|] eqn:Hi; try done.
      destruct resolved as [[api'|]|e]; simpl in Hstep; injection Hstep as <-;
        simpl in Hc1; [|by left..].
      destruct (decide (uri u = key)) as [Hu|Hu].
      * rewrite Hu, lookup_insert_eq in Hc1. injection Hc1 as ->.
        right. simpl. rewrite Hi. simpl.
        rewrite bool_decide_eq_true_2 by congruence. by left.
      * rewrite lookup_insert_ne in Hc1 by done. by left.
  - right.
    assert (Hsub : delivered_for (tasks w1) key evs ⊆ delivered_for (tasks w) key evs).
    { apply delivered_for_mono.
      destruct ev as [i | i resolved]; simpl in Hstep.
      - destruct (tasks w !! i) as [[u| |]|] eqn:Hi; try done.
        unfold loadWeb3Api_enter in Hstep.
        destruct (_apiCache (client w) !! uri u); injection Hstep as <-; simpl;
          by apply (task_key_insert_mono _ _ (NotStarted u)).
      - destruct (tasks w !! i) as [[|u|]|] eqn:Hi; try done.
        destruct (loadWeb3Api_resume (client w) u resolved) as [c r].
        injection Hstep as <-. simpl.
        by apply (task_key_insert_mono _ _ (Resolving u)). }
    apply Hsub in Hin.
    destruct ev as [i | i [[api'|]|e]]; simpl; try done.
    case_bool_decide; [by right|done].
Qed.

Lemma cache_provenance_witness :
  _apiCache (client {| client := set_apiCache freshClient {[ uri uriA := apiA ]};
                       tasks := [Settled (Return apiA)];
                       resolveCalls := [uriA] |}) !! uri uriA = Some apiA
  ∧ (_apiCache (client (callers freshClient [uriA])) !! uri uriA = Some apiA
     ∨ apiA ∈ delivered_for (tasks (callers freshClient [uriA])) (uri uriA)
               [Call 0; Resume 0 (Return (Some apiA))]).
Proof.
  assert (Hrun :
    run (callers freshClient [uriA]) [Call 0; Resume 0 (Return (Some apiA))]
    = Some {| client := set_apiCache freshClient {[ uri uriA := apiA ]};
              tasks := [Settled (Return apiA)];
              resolveCalls := [uriA] |}) by reflexivity.
  split; [reflexivity|].
  exact (cache_provenance _ _ _ (uri uriA) apiA Hrun eq_refl).
Defined.

(** The calls of a batch, entered one after the other before any
    resolution settles. *)
Lemma run_enter_batch c us :
  ∀ before started,
    run {| client := c; tasks := before ++ (NotStarted <$> us);
           resolveCalls := started |}
        (Call <$> seq (length before) (length us))
    = Some {| client := c; tasks := before ++ (entered c <$> us);
              resolveCalls := reverse (uncached c us) ++ started |}.
Proof.
  induction us as [|u us IH]; intros before started; [done|].
  cbn [length seq fmap list_fmap run]. unfold step. cbn [tasks client resolveCalls].
  rewrite lookup_app_r by lia. rewrite Nat.sub_diag. cbn [lookup list_lookup].
  unfold loadWeb3Api_enter, uncached. rewrite filter_cons.
  unfold entered at 1.
  destruct (_apiCache c !! uri u) as [api|] eqn:Hu;
    cbn [tasks client resolveCalls];
    rewrite insert_app_r_alt by lia; rewrite Nat.sub_diag; cbn [insert list_insert].
  - pose proof (IH (before ++ [Settled (Return api)]) started) as IH'.
    rewrite length_app, Nat.add_1_r, <- !app_assoc in IH'. simpl in IH'.
    rewrite IH'. by rewrite decide_False.
  - pose proof (IH (before ++ [Resolving u]) (u :: started)) as IH'.
    rewrite length_app, Nat.add_1_r, <- !app_assoc in IH'. simpl in IH'.
    rewrite IH'. rewrite decide_True by done.
    by rewrite reverse_cons, <- app_assoc.
Qed.

Lemma resolving_entered c key u :
  _apiCache c !! key = None →
  resolving key (entered c u) = bool_decide (uri u = key).
Proof.
  intros Hkey. unfold entered.
  destruct (_apiCache c !! uri u) eqn:Hu; simpl; [|done].
  symmetry. apply bool_decide_eq_false_2. congruence.
Qed.

Lemma invoke_enter_entered w options :
  invoke_enter w options
  = {| client := client w;
       tasks := tasks w ++ [entered (client w) (opt_uri options)];
       resolveCalls := uncached (client w) [opt_uri options] ++ resolveCalls w |}.
Proof.
  unfold invoke_enter, loadWeb3Api_enter, entered, uncached.
  rewrite filter_cons, filter_nil.
  destruct (_apiCache (client w) !! uri (opt_uri options)) eqn:Hc.
  - by rewrite decide_False.
  - by rewrite decide_True.
Qed.

Lemma query_loop_entered invokeOptions :
  ∀ w,
    foldl (λ w invocation,
             invoke_enter w {| opt_uri := opt_uri invocation;
                               opt_method := opt_method invocation;
                               opt_input := opt_input invocation;
                               opt_decode := true |}) w invokeOptions
    = {| client := client w;
         tasks := tasks w ++ (entered (client w) <$> (opt_uri <$> invokeOptions));
         resolveCalls := reverse (uncached (client w) (opt_uri <$> invokeOptions))
                         ++ resolveCalls w |}.
Proof.
  induction invokeOptions as [|o os IH]; intros w.
  { simpl. rewrite app_nil_r. by destruct w. }
  cbn [foldl fmap list_fmap]. rewrite IH, invoke_enter_entered.
  cbn [client tasks resolveCalls opt_uri]. f_equal.
  - by rewrite <- app_assoc.
  - unfold uncached. rewrite (filter_cons _ (opt_uri o)), filter_nil.
    case_decide; simpl.
    + rewrite filter_cons_True by done. by rewrite reverse_cons, <- app_assoc.
    + by rewrite filter_cons_False.
Qed.

(** X9.  The loop of [query] calls [invoke], and with it [loadWeb3Api],
    for every operation without awaiting any of them.  When the loop is
    through, the cache is untouched, a call for a cached Uri has its handle,
    and [resolveUri] has been called once per call for an uncached Uri, in
    operation order, repeated Uris included; this is the state that the
    calls reach when each is entered before any resolution settles. *)
Theorem query_loads_enter_together (c : Web3ApiClient)
    (invokeOptions : list InvokeApiOptions) :
  client (query_start_invocations c invokeOptions) = c
  ∧ tasks (query_start_invocations c invokeOptions)
    = entered c <$> (opt_uri <$> invokeOptions)
  ∧ reverse (resolveCalls (query_start_invocations c invokeOptions))
    = uncached c (opt_uri <$> invokeOptions)
  ∧ run (callers c (opt_uri <$> invokeOptions))
        (Call <$> seq 0 (length invokeOptions))
    = Some (query_start_invocations c invokeOptions)
  ∧ ∀ key, _apiCache c !! key = None →
      attempts (query_start_invocations c invokeOptions) key
      = length (filter (λ o, uri (opt_uri o) = key) invokeOptions)
      ∧ in_flight (query_start_invocations c invokeOptions) key
        = length (filter (λ o, uri (opt_uri o) = key) invokeOptions).
Proof.
  unfold query_start_invocations. rewrite query_loop_entered.
  cbn [client tasks resolveCalls app]. rewrite app_nil_r, reverse_involutive.
  split; [done|]. split; [done|]. split; [done|]. split.
  { pose proof (run_enter_batch c (opt_uri <$> invokeOptions) [] []) as Hrun.
    rewrite length_fmap, app_nil_r in Hrun. exact Hrun. }
  intros key Hkey. unfold attempts, in_flight. cbn [tasks resolveCalls].
  split.
  - rewrite filter_reverse, length_reverse. unfold uncached.
    induction invokeOptions as [|o os IH]; [done|].
    cbn [fmap list_fmap]. rewrite !filter_cons.
    destruct (decide (uri (opt_uri o) = key)) as [Hu|Hu].
    + rewrite decide_True by (by rewrite Hu). rewrite filter_cons_True by done.
      simpl. by rewrite IH.
    + case_decide; [rewrite filter_cons_False by done|]; apply IH.
  - induction invokeOptions as [|o os IH]; [done|].
    cbn [fmap list_fmap]. rewrite !filter_cons.
    rewrite (resolving_entered c key (opt_uri o) Hkey).
    destruct (decide (uri (opt_uri o) = key)) as [Hu|Hu].
    + rewrite bool_decide_eq_true_2 by done. rewrite decide_True by done.
      simpl. by rewrite IH.
    + rewrite bool_decide_eq_false_2 by done. rewrite decide_False by done.
      apply IH.
Qed.

Lemma query_loads_enter_together_witness :
  attempts
    (query_start_invocations freshClient
       [ {| opt_uri := uriA; opt_method := "getData"; opt_input := JNull;
            opt_decode := false |};
         {| opt_uri := uriA; opt_method := "setData"; opt_input := JNumber 5;
            opt_decode := false |} ]) (uri uriA) = 2.
Proof.
  destruct (query_loads_enter_together freshClient
              [ {| opt_uri := uriA; opt_method := "getData"; opt_input := JNull;
                   opt_decode := false |};
                {| opt_uri := uriA; opt_method := "setData"; opt_input := JNumber 5;
                   opt_decode := false |} ])
    as (_ & _ & _ & _ & Hkey).
  apply (Hkey (uri uriA)). reflexivity.
Defined.

(** X10.  A load that returned a handle can be repeated: the next load
    of the same Uri returns the same handle and leaves the client as it is,
    whatever [resolveUri] would now answer. *)
Theorem loadWeb3Api_repeat (c : Web3ApiClient) (u : Uri)
    (resolved resolved' : Result (option Api)) (api : Api)
    (Hloaded : (loadWeb3Api c u resolved).2 = Return api) :
  loadWeb3Api (loadWeb3Api c u resolved).1 u resolved'
  = ((loadWeb3Api c u resolved).1, Return api).
Proof.
  unfold loadWeb3Api, loadWeb3Api_enter in *.
  destruct (_apiCache c !! uri u) as [cached|] eqn:Hc; simpl in *.
  - injection Hloaded as ->. by rewrite Hc.
  - destruct resolved as [[api'|]|e]; simpl in *; try done.
    injection Hloaded as ->. by rewrite lookup_insert_eq.
Qed.

Lemma loadWeb3Api_repeat_witness :
  loadWeb3Api (loadWeb3Api freshClient uriA (Return (Some apiA))).1 uriA (Return None)
  = ((loadWeb3Api freshClient uriA (Return (Some apiA))).1, Return apiA).
Proof.
  apply (loadWeb3Api_repeat freshClient uriA (Return (Some apiA)) (Return None) apiA).
  reflexivity.
Defined.

(** ** More on [invoke] *)

(** X11.  The handle that [invoke] loads stays cached whatever the
    dispatched method does, a throwing method included: a later [invoke] on
    the same Uri dispatches on that handle without resolving again and
    leaves the client as it is. *)
Theorem invoke_keeps_handle (c : Web3ApiClient) (options options' : InvokeApiOptions)
    (resolved resolved' : Result (option Api))
    (dispatch dispatch' : Api → Result InvokeApiResult) (api : Api)
    (Hloaded : (loadWeb3Api c (opt_uri options) resolved).2 = Return api)
    (Hsame : opt_uri options' = opt_uri options) :
  _apiCache (Web3ApiClient_invoke c options resolved dispatch).1
    !! uri (opt_uri options) = Some api
  ∧ Web3ApiClient_invoke (Web3ApiClient_invoke c options resolved dispatch).1
      options' resolved' dispatch'
    = ((Web3ApiClient_invoke c options resolved dispatch).1,
       Return match dispatch' api with
              | Return r => r
              | Throw e => {| data := None; error := Some e |}
              end).
Proof.
  unfold Web3ApiClient_invoke. rewrite Hsame.
  unfold loadWeb3Api, loadWeb3Api_enter in *.
  destruct (_apiCache c !! uri (opt_uri options)) as [cached|] eqn:Hc;
    simpl in *.
  - injection Hloaded as ->. rewrite Hc. simpl.
    split; [done|]. by destruct (dispatch' api).
  - destruct resolved as [[api'|]|e]; simpl in *; try done.
    injection Hloaded as ->. rewrite lookup_insert_eq. simpl.
    split; [done|]. by destruct (dispatch' api).
Qed.

Lemma invoke_keeps_handle_witness :
  _apiCache
    (Web3ApiClient_invoke freshClient
       {| opt_uri := uriA; opt_method := "m"; opt_input := JNull; opt_decode := false |}
       (Return (Some apiA)) (λ _, Throw (mkError "trap"))).1 !! uri uriA = Some apiA.
Proof.
  apply (invoke_keeps_handle freshClient
           {| opt_uri := uriA; opt_method := "m"; opt_input := JNull; opt_decode := false |}
           {| opt_uri := uriA; opt_method := "n"; opt_input := JNull; opt_decode := false |}
           (Return (Some apiA)) (Return None)
           (λ _, Throw (mkError "trap")) (λ _, Throw (mkError "trap")) apiA);
    reflexivity.
Defined.

(** ** More on the keys of a query *)

Lemma occurrences_cons n m seen :
  occurrences n (m :: seen)
  = (if decide (m = n) then 1 else 0) + occurrences n seen.
Proof. unfold occurrences. rewrite filter_cons. by case_decide. Qed.

Lemma occurrences_fresh n seen : n ∉ seen → occurrences n seen = 0.
Proof.
  induction seen as [|m seen IH]; intros Hn; [done|].
  apply not_elem_of_cons in Hn as [Hne Hn].
  rewrite occurrences_cons, decide_False by done. by apply IH.
Qed.

Lemma unique_names_lookup names :
  ∀ seen i n, names !! i = Some n →
    unique_names seen names !! i
    = Some (suffixed n (occurrences n seen + occurrences n (take i names))).
Proof.
  induction names as [|m rest IH]; intros seen i n Hi; [done|].
  destruct i as [|i]; simpl in *.
  - injection Hi as ->. by rewrite Nat.add_0_r.
  - rewrite (IH _ _ _ Hi). rewrite !occurrences_cons. do 2 f_equal. lia.
Qed.

Lemma unique_names_distinct names :
  ∀ seen, NoDup names → (∀ n, n ∈ names → n ∉ seen) →
    unique_names seen names = names.
Proof.
  induction names as [|m rest IH]; intros seen Hnd Hseen; [done|].
  apply NoDup_cons in Hnd as [Hm Hnd]. simpl.
  rewrite occurrences_fresh by (apply Hseen; by left). simpl. f_equal.
  apply IH; [done|]. intros n Hn. apply not_elem_of_cons. split.
  - intros ->. done.
  - apply Hseen. by right.
Qed.

(** X12.  For names that are not members of [Object.prototype],
    [makeRepeatedUnique] gives one key per name, and the key at a position is
    the name itself when the name did not occur before, and the name with the
    suffix [_k] when it occurred [k] times before. *)
Theorem makeRepeatedUnique_positions (names : list string)
    (Hplain : plain_names names) :
  length (makeRepeatedUnique names) = length names
  ∧ ∀ i n, names !! i = Some n →
      makeRepeatedUnique names !! i
      = Some (suffixed n (occurrences n (take i names))).
Proof.
  rewrite makeRepeatedUnique_unique_names. split; [apply length_unique_names|].
  intros i n Hi. by rewrite (unique_names_lookup names [] i n Hi).
Qed.

Lemma makeRepeatedUnique_positions_witness :
  makeRepeatedUnique ["get"; "set"; "get"; "get"] !! 3 = Some "get_2".
Proof.
  refine (proj2 (makeRepeatedUnique_positions ["get"; "set"; "get"; "get"] _)
            3 "get" eq_refl).
  apply (bool_decide_unpack _). vm_compute. exact I.
Defined.

(** X13.  Names that are pairwise distinct are left as they are. *)
Theorem makeRepeatedUnique_distinct (names : list string)
    (Hdistinct : NoDup names) :
  makeRepeatedUnique names = names.
Proof.
  rewrite makeRepeatedUnique_unique_names.
  apply unique_names_distinct; [done|]. intros n _. apply not_elem_of_nil.
Qed.

Lemma makeRepeatedUnique_distinct_witness :
  makeRepeatedUnique ["deployContract"; "setData"; "getData"]
  = ["deployContract"; "setData"; "getData"].
Proof.
  apply makeRepeatedUnique_distinct.
  apply (bool_decide_unpack _). vm_compute. exact I.
Defined.

Lemma build_data_dom methods :
  ∀ resultDatas d, length methods = length resultDatas →
    dom (build_data methods resultDatas d) = list_to_set methods ∪ dom d.
Proof.
  induction methods as [|m ms IH]; intros [|v vs] d Hlen; simpl in *; try done.
  - by rewrite (left_id_L ∅ (∪)).
  - rewrite IH by lia. rewrite dom_insert_L.
    by rewrite (assoc_L (∪)), (comm_L (∪) (list_to_set ms) {[m]}).
Qed.

Lemma size_list_to_set_le (l : list string) :
  size (list_to_set l : gset string) ≤ length l.
Proof.
  induction l as [|x l IH].
  - change (size (∅ : gset string) ≤ 0). by rewrite size_empty.
  - rewrite list_to_set_cons, size_union_alt, size_singleton.
    assert (size (list_to_set l ∖ {[x]} : gset string) ≤ size (list_to_set l : gset string))
      by (apply subseteq_size, subseteq_difference_l; reflexivity).
    simpl. lia.
Qed.

(** X14.  For operation names that are not members of [Object.prototype],
    the data mapping of a query has the generated keys and no others, so at
    most one entry per operation. *)
Theorem query_data_keys (invocations : list (string * InvokeApiResult))
    (Hplain : plain_names (invocations.*1)) :
  ∃ d, q_data (query_aggregate invocations) = Some d
       ∧ dom d = list_to_set (result_keys invocations)
       ∧ size d ≤ length invocations.
Proof.
  eexists. split; [reflexivity|].
  assert (Hdom : dom (build_data (makeRepeatedUnique invocations.*1)
                        ((data ∘ snd) <$> invocations) ∅)
                 = list_to_set (result_keys invocations)).
  { rewrite build_data_dom.
    - rewrite dom_empty_L. unfold result_keys. by rewrite (right_id_L ∅ (∪)).
    - by rewrite length_makeRepeatedUnique, !length_fmap. }
  split; [exact Hdom|].
  rewrite <- size_dom, Hdom. etrans; [apply size_list_to_set_le|].
  unfold result_keys. by rewrite length_makeRepeatedUnique, length_fmap.
Qed.

Lemma query_data_keys_witness :
  ∃ d, q_data (query_aggregate [ ("a", succeeded (JNumber 1));
                                 ("a", succeeded (JNumber 2));
                                 ("a_1", succeeded (JNumber 3)) ]) = Some d
       ∧ size d ≤ 3.
Proof.
  destruct (query_data_keys [ ("a", succeeded (JNumber 1));
                              ("a", succeeded (JNumber 2));
                              ("a_1", succeeded (JNumber 3)) ])
    as (d & Hd & _ & Hsize).
  - apply (bool_decide_unpack _). vm_compute. exact I.
  - exists d. split; [exact Hd | exact Hsize].
Defined.

(** X15.  When the operation names are not members of [Object.prototype]
    and none has the form [m_k] of a name [m] of the query, no value is lost:
    the data mapping has one entry per operation, and every operation's own
    data is found under its key. *)
Theorem query_no_value_lost (invocations : list (string * InvokeApiResult))
    (Hplain : plain_names (invocations.*1))
    (Hnames : unsuffixed (invocations.*1)) :
  ∃ d, q_data (query_aggregate invocations) = Some d
       ∧ size d = length invocations
       ∧ ∀ i key inv,
           result_keys invocations !! i = Some key →
           invocations !! i = Some inv →
           d !! key = Some (data inv.2).
Proof.
  pose proof (makeRepeatedUnique_NoDup _ Hnames) as Hnd.
  eexists. split; [reflexivity|]. split.
  - rewrite <- size_dom, build_data_dom
      by (by rewrite length_makeRepeatedUnique, !length_fmap).
    rewrite dom_empty_L, (right_id_L ∅ (∪)), size_list_to_set by done.
    by rewrite length_makeRepeatedUnique, length_fmap.
  - intros i key inv Hkey Hinv.
    eapply build_data_last; [exact Hkey| |].
    + by rewrite list_lookup_fmap, Hinv.
    + intros j Hj Hkey'. unfold result_keys in Hkey.
      pose proof (NoDup_lookup _ _ _ _ Hnd Hkey Hkey'). lia.
Qed.

Lemma query_no_value_lost_witness :
  ∃ d, q_data (query_aggregate [ ("a", succeeded (JNumber 1));
                                 ("b", failed (mkError "E"));
                                 ("a", succeeded (JNumber 3)) ]) = Some d
       ∧ size d = 3.
Proof.
  destruct (query_no_value_lost [ ("a", succeeded (JNumber 1));
                                  ("b", failed (mkError "E"));
                                  ("a", succeeded (JNumber 3)) ])
    as (d & Hd & Hsize & _).
  - apply (bool_decide_unpack _). vm_compute. exact I.
  - intros n m k Hn Hm Heq.
    apply list_elem_of_In in Hn, Hm. simpl in Hn, Hm.
    assert (Hlen : String.length n = 1)
      by (by destruct Hn as [<-|[<-|[<-|[]]]]).
    rewrite Heq in Hlen. by destruct Hm as [<-|[<-|[<-|[]]]].
  - exists d. split; [exact Hd | exact Hsize].
Defined.

(** ** The IPFS plugin *)

Lemma Uint8Array_set_exact (source : list Byte.byte) :
  Uint8Array_set (Uint8Array_new (length source)) source = Return source.
Proof.
  unfold Uint8Array_set, Uint8Array_new. rewrite length_replicate.
  rewrite bool_decide_eq_false_2 by lia.
  rewrite drop_ge by (by rewrite length_replicate). by rewrite app_nil_r.
Qed.

(** X16.  On a stream that ends normally [catToBuffer] returns the bytes
    of the chunks in order, nothing dropped and nothing padded; the copy into
    the new array never throws.  A stream that fails makes it throw the
    failure. *)
Theorem catToBuffer_bytes (ipfs_cat : IpfsClient → string → CatStream)
    (p : IpfsPlugin) (ipfs : IpfsClient) (cid : string)
    (Hclient : _ipfs p = Some ipfs) :
  IpfsPlugin_catToBuffer ipfs_cat p cid
  = match failure (ipfs_cat ipfs cid) with
    | Some e => Throw e
    | None => Return (concat (chunks (ipfs_cat ipfs cid)))
    end.
Proof.
  unfold IpfsPlugin_catToBuffer. rewrite Hclient.
  destruct (failure (ipfs_cat ipfs cid)); [done|]. apply Uint8Array_set_exact.
Qed.

Lemma catToBuffer_bytes_witness :
  IpfsPlugin_catToBuffer
    (λ _ _, {| chunks := [[Byte.x68; Byte.x65]; []; [Byte.x79]]; failure := None |})
    {| ipfs_config := 0; _ipfs := Some {| endpoint := "http://localhost:5001" |} |}
    "QmHash"
  = Return [Byte.x68; Byte.x65; Byte.x79].
Proof.
  exact (catToBuffer_bytes
           (λ _ _, {| chunks := [[Byte.x68; Byte.x65]; []; [Byte.x79]]; failure := None |})
           {| ipfs_config := 0; _ipfs := Some {| endpoint := "http://localhost:5001" |} |}
           {| endpoint := "http://localhost:5001" |} "QmHash" eq_refl).
Defined.

Lemma digits_and_commas_app s1 s2 :
  digits_and_commas (s1 +:+ s2) = digits_and_commas s1 && digits_and_commas s2.
Proof.
  induction s1 as [|c s1 IH]; simpl; [done|]. by rewrite IH, andb_assoc.
Qed.

Lemma digits_only_digits_and_commas s :
  digits_only s = true → digits_and_commas s = true.
Proof.
  induction s as [|c s IH]; simpl; [done|].
  intros [Hc Hs]%andb_true_iff. by rewrite Hc, IH.
Qed.

Lemma digits_and_commas_concat (l : list string) :
  Forall (λ s, digits_only s = true) l →
  digits_and_commas (String.concat "," l) = true.
Proof.
  induction 1 as [|s l Hs Hl IH]; [done|].
  destruct l as [|s' l].
  - by apply digits_only_digits_and_commas.
  - change (String.concat "," (s :: s' :: l))
      with (s +:+ "," +:+ String.concat "," (s' :: l)).
    rewrite !digits_and_commas_app, IH.
    by rewrite (digits_only_digits_and_commas s Hs).
Qed.

(** X17.  [catToString] does not decode the content as text: what it
    returns is the decimal values of the bytes separated by commas, so a
    string of digits and commas only. *)
Theorem catToString_decimal (ipfs_cat : IpfsClient → string → CatStream)
    (p : IpfsPlugin) (cid : string) (text : string)
    (Hret : IpfsPlugin_catToString ipfs_cat p cid = Return text) :
  ∃ bytes, IpfsPlugin_catToBuffer ipfs_cat p cid = Return bytes
           ∧ text = String.concat "," ((λ b, pretty (Byte.to_N b)) <$> bytes)
           ∧ digits_and_commas text = true.
Proof.
  unfold IpfsPlugin_catToString in Hret.
  destruct (IpfsPlugin_catToBuffer ipfs_cat p cid) as [bytes|e]; [|done].
  simpl in Hret. injection Hret as <-. exists bytes. split; [done|].
  split; [done|]. apply digits_and_commas_concat.
  apply Forall_fmap, Forall_forall. intros b _. simpl.
  unfold pretty, pretty_N. case_decide; [done|].
  by apply digits_only_pretty_N_go.
Qed.

Lemma catToString_decimal_witness :
  ∃ bytes,
    IpfsPlugin_catToBuffer
      (λ _ _, {| chunks := [[Byte.x68; Byte.x69]]; failure := None |})
      {| ipfs_config := 0; _ipfs := Some {| endpoint := "http://localhost:5001" |} |}
      "QmHash" = Return bytes
    ∧ "104,105" = String.concat "," ((λ b, pretty (Byte.to_N b)) <$> bytes)
    ∧ digits_and_commas "104,105" = true.
Proof.
  exact (catToString_decimal
           (λ _ _, {| chunks := [[Byte.x68; Byte.x69]]; failure := None |})
           {| ipfs_config := 0; _ipfs := Some {| endpoint := "http://localhost:5001" |} |}
           "QmHash" "104,105" eq_refl).
Defined.

(** X18.  A new plugin has a client for the provider its config names,
    and constructing it leaves the config objects as they are. *)
Theorem IpfsPlugin_new_agreement (h : gmap ref IpfsConfig) (config : ref)
    (cfg : IpfsConfig)
    (Hcfg : h !! config = Some cfg) :
  ∃ p,
    IpfsPlugin_new h config = Some (h, p)
    ∧ ipfs_config p = config
    ∧ _ipfs p = Some {| endpoint := provider cfg |}
    ∧ in_agreement h p.
Proof.
  unfold IpfsPlugin_new, IpfsPlugin_setProvider. rewrite Hcfg. simpl.
  rewrite Hcfg. simpl. eexists. split.
  - do 2 f_equal. apply insert_id. by destruct cfg.
  - split; [done|]. split; [done|].
    exists (provider cfg). unfold config_provider. simpl. by rewrite Hcfg.
Qed.

Lemma IpfsPlugin_new_agreement_witness :
  ∃ p,
    IpfsPlugin_new exampleIpfsConfigs 3 = Some (exampleIpfsConfigs, p)
    ∧ _ipfs p = Some {| endpoint := "http://a:5001" |}.
Proof.
  destruct (IpfsPlugin_new_agreement exampleIpfsConfigs 3
              {| provider := "http://a:5001" |})
    as (p & Hnew & _ & Hclient & _); [reflexivity|].
  exists p. split; [exact Hnew | exact Hclient].
Defined.

(** X19.  [setProvider] writes into the config object the plugin was
    given.  The plugin itself stays in agreement with its config; another
    plugin built from the same config object now reads the new provider from
    its config while its client is the one it had, so it is in agreement only
    when its client was already for that provider.  Plugins with another
    config object are not affected. *)
Theorem setProvider_shared_config (h : gmap ref IpfsConfig)
    (p1 p2 : IpfsPlugin) (cfg : IpfsConfig) (newProvider : string)
    (Hcfg : h !! ipfs_config p1 = Some cfg)
    (Hshared : ipfs_config p2 = ipfs_config p1) :
  ∃ h' p1',
    IpfsPlugin_setProvider h p1 newProvider = Some (h', p1')
    ∧ in_agreement h' p1'
    ∧ config_provider h' p2 = Some newProvider
    ∧ (in_agreement h' p2 ↔ _ipfs p2 = Some {| endpoint := newProvider |})
    ∧ (∀ q, ipfs_config q ≠ ipfs_config p1 →
         config_provider h' q = config_provider h q).
Proof.
  unfold IpfsPlugin_setProvider. rewrite Hcfg. simpl.
  do 2 eexists. split; [reflexivity|].
  assert (Hp2 : config_provider
                  (<[ipfs_config p1 := {| provider := newProvider |}]> h) p2
                = Some newProvider).
  { unfold config_provider. by rewrite Hshared, lookup_insert_eq. }
  split; [|split; [exact Hp2|split]].
  - exists newProvider. unfold config_provider. simpl.
    by rewrite lookup_insert_eq.
  - unfold in_agreement. rewrite Hp2. split.
    + by intros (prov & [= <-] & Hclient).
    + intros Hclient. by exists newProvider.
  - intros q Hq. unfold config_provider. by rewrite lookup_insert_ne.
Qed.

Lemma setProvider_shared_config_witness :
  ∃ h' p1',
    IpfsPlugin_setProvider exampleIpfsConfigs
      {| ipfs_config := 3; _ipfs := Some {| endpoint := "http://a:5001" |} |}
      "http://b:5001" = Some (h', p1')
    ∧ config_provider h'
        {| ipfs_config := 3; _ipfs := Some {| endpoint := "http://a:5001" |} |}
      = Some "http://b:5001".
Proof.
  destruct (setProvider_shared_config exampleIpfsConfigs
              {| ipfs_config := 3; _ipfs := Some {| endpoint := "http://a:5001" |} |}
              {| ipfs_config := 3; _ipfs := Some {| endpoint := "http://a:5001" |} |}
              {| provider := "http://a:5001" |} "http://b:5001")
    as (h' & p1' & Hset & _ & Hprov & _); [reflexivity | reflexivity |].
  exists h', p1'. split; [exact Hset | exact Hprov].
Defined.
